(** * Gemini chat exporter: the extraction core of [src/content.js]

    A shallow embedding of the content script and the properties of its
    fingerprinting, deduplication, role classification, timestamp
    formatting, scroll driver, renderer and message handler, and of the
    file name the popup gives an export ([src/popup.js]).

    [content.js] holds two revisions of the script, one after the other.
    Functions whose text is the same in both revisions ([hashContent],
    [deduplicateMessages]) are embedded once; the others live in the
    modules [V1] (lines 1-755) and [V2] (lines 757-1366). *)

From Stdlib Require Import ZArith NArith List Bool Ascii String DecimalString
  DecimalNat.
From stdpp Require Import base gmap sets list.

#[local] Set Warnings "-clear-no-such-hyp".
Local Open Scope N_scope.

(** ** JavaScript strings

    A JavaScript string is a sequence of UTF-16 code units; [length],
    [substring] and [trim] all count code units.  A code unit is an [N]. *)

Abbreviation jsstring := (list N).

(** A literal written with ASCII characters only. *)
Definition js (s : string) : jsstring :=
  N_of_ascii <$> list_ascii_of_string s.

(** Line feed, written [\n] in the source. *)
Definition LF : jsstring := [10].

(** [Number.prototype.toString] on a non-negative integer. *)
Definition decimal (n : nat) : jsstring :=
  js (NilZero.string_of_uint (Nat.to_uint n)).

(** The code units [String.prototype.trim] strips: ECMAScript's WhiteSpace
    (TAB, VT, FF, SP, NBSP, ZWNBSP and the space separators) and
    LineTerminator (LF, CR, LS, PS). *)
Definition isWhiteSpace (c : N) : bool :=
  (c =? 9) || (c =? 10) || (c =? 11) || (c =? 12) || (c =? 13) || (c =? 32)
  || (c =? 160) || (c =? 0x1680) || ((0x2000 <=? c) && (c <=? 0x200A))
  || (c =? 0x2028) || (c =? 0x2029) || (c =? 0x202F) || (c =? 0x205F)
  || (c =? 0x3000) || (c =? 0xFEFF).

Fixpoint trimStart (s : jsstring) : jsstring :=
  match s with
  | c :: s' => if isWhiteSpace c then trimStart s' else s
  | [] => []
  end.

Definition trimEnd (s : jsstring) : jsstring :=
  reverse (trimStart (reverse s)).

Definition trim (s : jsstring) : jsstring := trimEnd (trimStart s).

(** [s.substring(0, n)]. *)
Definition substring0 (n : nat) (s : jsstring) : jsstring := take n s.

(** [s.includes(t)]. *)
Fixpoint includes (s t : jsstring) : bool :=
  match s with
  | [] => bool_decide (t = [])
  | _ :: s' => bool_decide (t `prefix_of` s) || includes s' t
  end.

(** ** Messages *)

Inductive Role := user | assistant.

#[global] Instance Role_eq_dec : EqDecision Role.
Proof. solve_decision. Defined.

(** [{ role, content, timestamp }]; a message built without a timestamp
    (or with [null]) has [timestamp = None]. *)
Record Message := mkMessage {
  role : Role;
  content : jsstring;
  timestamp : option jsstring
}.

#[global] Instance Message_eq_dec : EqDecision Message.
Proof. solve_decision. Defined.

(** ** Fingerprint and deduplication (lines 187-211 and 767-791) *)

(** [hashContent]: the empty string is falsy, so it maps to [''];
    otherwise [content.substring(0, 100).trim() + '|' + content.length]. *)
Definition hashContent (content : jsstring) : jsstring :=
  match content with
  | [] => []
  | _ => trim (substring0 100 content) ++ js "|" ++ decimal (length content)
  end.

(** The fingerprint of a message is the hash of its content. *)
Definition fingerprint (msg : Message) : jsstring := hashContent (content msg).

(** One turn of the [for (const msg of messages)] loop over the pair
    [(seen, result)]. *)
Definition dedupe_step (st : gset jsstring * list Message) (msg : Message)
  : gset jsstring * list Message :=
  let '(seen, result) := st in
  let hash := hashContent (content msg) in
  if decide (hash ∈ seen) then (seen, result)
  else ({[hash]} ∪ seen, result ++ [msg]).

Definition deduplicateMessages (messages : list Message) : list Message :=
  snd (foldl dedupe_step (∅, []) messages).

(** ** The accumulator

[messages] and [seenContent], created together by the handler and
threaded through every extraction pass. *)
Record Acc := mkAcc {
  messages : list Message;
  seenContent : gset jsstring
}.

Definition emptyAcc : Acc := mkAcc [] ∅.

(** ** Elements of the live document

A located element is described by what the script reads from it:
its [className], its [data-message-author-role] attribute, the result
of [extractTimestamp] on it, and [markdown], the value of [html] in
[htmlToMarkdown] right before the closing [html = html.trim()]. *)

(** The value of [el.className]: a string on an HTML element, an
    [SVGAnimatedString] object on an SVG element.  The selectors of the
    script match elements of both kinds. *)
Inductive ClassName :=
| classString (s : jsstring)
| animatedString.

#[global] Instance ClassName_eq_dec : EqDecision ClassName.
Proof. solve_decision. Defined.

Record Element := mkElement {
  className : ClassName;
  dataRole : option jsstring;
  foundTimestamp : option jsstring;
  markdown : jsstring
}.

(** [extractMessageContent] returns [htmlToMarkdown(clone)], whose last
    step trims (lines 385, 944). *)
Definition extractMessageContent (el : Element) : jsstring := trim (markdown el).

(** A JavaScript string is truthy when it is not empty. *)
Definition truthy (s : jsstring) : bool :=
  match s with [] => false | _ => true end.

(** [a || b] on values that are a string or [null]. *)
Definition orElse (a b : option jsstring) : option jsstring :=
  match a with
  | Some s => if truthy s then a else b
  | None => b
  end.

(** [String.prototype.toLowerCase], on the letters A-Z; other code units
    are left as they are.  The full Unicode mapping sends no code unit
    outside A-Z to a letter of user, query, human or prompt, so the four
    [includes] tests of [determineMessageRole] read the same. *)
Definition toLowerCase (s : jsstring) : jsstring :=
  (λ c, if (65 <=? c) && (c <=? 90) then c + 32 else c) <$> s.

(** ** Role classification (lines 218-231)

[None] is the [TypeError] of line 219: an [SVGAnimatedString] is truthy,
so [el.className || ''] is that object, which has no [toLowerCase]. *)
Definition determineMessageRole (el : Element) : option Role :=
  match className el with
  | animatedString => None
  | classString s =>
      let classNames := toLowerCase s in
      if bool_decide (dataRole el = Some (js "user"))
         || includes classNames (js "user")
         || includes classNames (js "query")
         || includes classNames (js "human")
         || includes classNames (js "prompt")
      then Some user else Some assistant
  end.

(** ** Timestamp formatting (lines 60-78) *)

Definition isDigit (c : N) : bool := (48 <=? c) && (c <=? 57).

(** The integer written by the longest prefix of decimal digits. *)
Fixpoint digitsValue (acc : Z) (s : jsstring) : Z :=
  match s with
  | c :: s' =>
      if isDigit c then digitsValue (10 * acc + Z.of_N (c - 48))%Z s' else acc
  | [] => acc
  end.

(** [parseInt(value, 10)]: leading white space is skipped, one sign is
    read, then the longest run of digits; [None] stands for [NaN].  The
    result is an IEEE double in the source; every comparison made on it
    below has the same outcome on the exact integer, since [9999999999]
    and the largest valid time value are both below [2^53]. *)
Definition parseInt10 (value : jsstring) : option Z :=
  let s := trimStart value in
  let '(sign, digits) :=
    match s with
    | 45 :: r => ((-1)%Z, r)
    | 43 :: r => (1%Z, r)
    | _ => (1%Z, s)
    end in
  match digits with
  | c :: _ => if isDigit c then Some (sign * digitsValue 0 digits)%Z else None
  | [] => None
  end.

(** [!isNaN(new Date(t).getTime())] for a number [t]: ECMAScript's
    TimeClip keeps [|t| <= 8.64e15]. *)
Definition validTime (t : Z) : bool := (Z.abs t <=? 8640000000000000)%Z.

Section FormatTimestamp.
(** [date.toLocaleString()] of the date with time value [t], and
    [new Date(value).getTime()] for a string ([None] for [NaN]): both
    are left to the host. *)
Variable toLocaleString : Z → jsstring.
Variable dateParse : jsstring → option Z.

Definition formatTimestamp (value : jsstring) : jsstring :=
  let asDateString :=
    match dateParse value with
    | Some t => toLocaleString t
    | None => value
    end in
  match parseInt10 value with
  | Some num =>
      let t := if (num >? 9999999999)%Z then num else (num * 1000)%Z in
      if validTime t then toLocaleString t else asDateString
  | None => asDateString
  end.
End FormatTimestamp.

(** ** Rendering *)

Definition rule : jsstring := js "---" ++ LF ++ LF.

(** [messages.filter(m => m.role === r).length] *)
Definition countRole (r : Role) (msgs : list Message) : nat :=
  length (filter (λ m, role m = r) msgs).

(** [messages.forEach((msg, index) => ...)] appending to [markdown]. *)
Definition forEachIndexed (block : nat → Message → jsstring)
    (msgs : list Message) (markdown : jsstring) : jsstring :=
  foldl (λ md im, md ++ block (fst im) (snd im)) markdown
        (zip (seq 0 (length msgs)) msgs).

(** [index < messages.length - 1], in integers. *)
Definition notLast (index : nat) (msgs : list Message) : bool :=
  (Z.of_nat index <? Z.of_nat (length msgs) - 1)%Z.

(** ** The response of the [extractChat] handler *)
Inductive Response :=
| Success (markdown title : jsstring) (messageCount : nat)
| Failure (error : jsstring).

Definition noMessagesError : jsstring :=
  js "No chat messages found. Make sure you are on a Gemini chat page with an active conversation.".

Definition extractionError (message : jsstring) : jsstring :=
  js "Failed to extract chat: " ++ message.

(** How a call ended: by returning, or by the [TypeError] of
    [determineMessageRole], the one throw followed here. *)
Inductive Completion := Returned | Thrown.

(** ** The scrolled view

What the driver can do to the live view and read from it.  [sleep ms]
is what the page does on its own while the script awaits. *)
Record ViewOps (View Doc : Type) := mkViewOps {
  getScrollTop : View → Z;
  getScrollHeight : View → Z;
  getClientHeight : View → Z;
  scrollBy : Z → View → View;
  setScrollTop : Z → View → View;
  sleep : Z → View → View;
  document : View → Doc
}.
Arguments getScrollTop {View Doc}.
Arguments getScrollHeight {View Doc}.
Arguments getClientHeight {View Doc}.
Arguments scrollBy {View Doc}.
Arguments setScrollTop {View Doc}.
Arguments sleep {View Doc}.
Arguments document {View Doc}.

(** How the scroll loop ended. *)
Inductive Exit := Stuck | AtTop | HardCap.

Definition maxScrolls : nat := 500.

(** ** The scroll loop (lines 636-698 and 1232-1295)

The two revisions run the same loop; they differ in the extraction
pass, in the bound and the delay of the inner wait, and in the step. *)
Record Loop (View : Type) := mkLoop {
  view : View;
  acc : Acc;
  stuckCount : nat;
  scrollCount : nat;
  (** Instrumentation: the number of [scrollBy] calls made so far.  No
      branch reads it. *)
  advances : nat
}.
Arguments mkLoop {View}.
Arguments view {View}.
Arguments acc {View}.
Arguments stuckCount {View}.
Arguments scrollCount {View}.
Arguments advances {View}.

Section ScrollLoop.
Context {View Doc : Type} (ops : ViewOps View Doc).
(** [extractVisibleMessages(messages, seenContent)] of revision 1,
    [extractVisibleMessages(messages, seenContent, true)] of revision 2. *)
Variable extractPass : Doc → Acc → Acc.
(** [3] and [50] in revision 1, [5] and [75] in revision 2. *)
Variable adaptiveMax : nat.
Variable adaptiveDelay : Z.
Variable scrollStep : Z.

(** [while (adaptiveLoops < adaptiveMax)], by recursion on
    [adaptiveMax - adaptiveLoops].  [newMessageCount] is read from
    [messages] after the pass and compared with [messages.length]. *)
Fixpoint adaptiveWait (budget : nat) (v : View) (a : Acc)
    (currentScrollHeight : Z) : View * Acc * Z :=
  match budget with
  | O => (v, a, currentScrollHeight)
  | S budget' =>
      let v' := sleep ops adaptiveDelay v in
      let a' := extractPass (document ops v') a in
      let newScrollHeight := getScrollHeight ops v' in
      let newMessageCount := length (messages a') in
      if (newScrollHeight =? currentScrollHeight)%Z
         && (newMessageCount =? length (messages a'))%nat
      then (v', a', currentScrollHeight)
      else adaptiveWait budget' v' a' newScrollHeight
  end.

(** One turn of the outer [while]; [Some e] when it leaves through a
    [break], [None] when it reaches [scrollCount++]. *)
Definition iteration (st : Loop View) : Loop View * option Exit :=
  let previousScrollTop := getScrollTop ops (view st) in
  let previousScrollHeight := getScrollHeight ops (view st) in
  let v1 := sleep ops 50 (scrollBy ops (- scrollStep) (view st)) in
  let a1 := extractPass (document ops v1) (acc st) in
  let currentScrollTop := getScrollTop ops v1 in
  let '(v2, a2, currentScrollHeight) :=
    adaptiveWait adaptiveMax v1 a1 (getScrollHeight ops v1) in
  let stuck0 :=
    if (currentScrollHeight >? previousScrollHeight)%Z then O
    else stuckCount st in
  let unmoved := (Z.abs (currentScrollTop - previousScrollTop) <? 10)%Z in
  let stuck1 := if unmoved then S stuck0 else O in
  let st' := mkLoop v2 a2 stuck1 (scrollCount st) (S (advances st)) in
  if unmoved && (3 <=? stuck1)%nat then (st', Some Stuck)
  else if (currentScrollTop <=? 10)%Z then (st', Some AtTop)
  else (mkLoop v2 a2 stuck1 (S (scrollCount st)) (S (advances st)), None).

(** [while (scrollCount < maxScrolls)], by recursion on
    [maxScrolls - scrollCount]. *)
Fixpoint scrollLoop (remaining : nat) (st : Loop View) : Loop View * Exit :=
  match remaining with
  | O => (st, HardCap)
  | S remaining' =>
      match iteration st with
      | (st', Some e) => (st', e)
      | (st', None) => scrollLoop remaining' st'
      end
  end.
End ScrollLoop.

(** ** The scroll loop when a pass can throw

The same loop for a pass that says how it ended.  A throw leaves every
enclosing call at once and reaches the [catch] of the handler, which
uses nothing of what was accumulated: [None]. *)
Section ThrowingScrollLoop.
Context {View Doc : Type} (ops : ViewOps View Doc).
Variable extractPass : Doc → Acc → Acc * Completion.
Variable adaptiveMax : nat.
Variable adaptiveDelay : Z.
Variable scrollStep : Z.

Fixpoint tryAdaptiveWait (budget : nat) (v : View) (a : Acc)
    (currentScrollHeight : Z) : option (View * Acc * Z) :=
  match budget with
  | O => Some (v, a, currentScrollHeight)
  | S budget' =>
      let v' := sleep ops adaptiveDelay v in
      match extractPass (document ops v') a with
      | (_, Thrown) => None
      | (a', Returned) =>
          let newScrollHeight := getScrollHeight ops v' in
          let newMessageCount := length (messages a') in
          if (newScrollHeight =? currentScrollHeight)%Z
             && (newMessageCount =? length (messages a'))%nat
          then Some (v', a', currentScrollHeight)
          else tryAdaptiveWait budget' v' a' newScrollHeight
      end
  end.

Definition tryIteration (st : Loop View) : option (Loop View * option Exit) :=
  let previousScrollTop := getScrollTop ops (view st) in
  let previousScrollHeight := getScrollHeight ops (view st) in
  let v1 := sleep ops 50 (scrollBy ops (- scrollStep) (view st)) in
  match extractPass (document ops v1) (acc st) with
  | (_, Thrown) => None
  | (a1, Returned) =>
      let currentScrollTop := getScrollTop ops v1 in
      match tryAdaptiveWait adaptiveMax v1 a1 (getScrollHeight ops v1) with
      | None => None
      | Some (v2, a2, currentScrollHeight) =>
          let stuck0 :=
            if (currentScrollHeight >? previousScrollHeight)%Z then O
            else stuckCount st in
          let unmoved :=
            (Z.abs (currentScrollTop - previousScrollTop) <? 10)%Z in
          let stuck1 := if unmoved then S stuck0 else O in
          let st' := mkLoop v2 a2 stuck1 (scrollCount st) (S (advances st)) in
          if unmoved && (3 <=? stuck1)%nat then Some (st', Some Stuck)
          else if (currentScrollTop <=? 10)%Z then Some (st', Some AtTop)
          else Some (mkLoop v2 a2 stuck1 (S (scrollCount st))
                            (S (advances st)), None)
      end
  end.

Fixpoint tryScrollLoop (remaining : nat) (st : Loop View)
  : option (Loop View * Exit) :=
  match remaining with
  | O => Some (st, HardCap)
  | S remaining' =>
      match tryIteration st with
      | None => None
      | Some (st', Some e) => Some (st', e)
      | Some (st', None) => tryScrollLoop remaining' st'
      end
  end.
End ThrowingScrollLoop.

(** ** Revision 1 (lines 1-755) *)
Module V1.

(** A turn container: [extractTimestamp(turn)] and the two
    [turn.querySelector] results. *)
Record Turn := mkTurn {
  turnTimestamp : option jsstring;
  userEl : option Element;
  modelEl : option Element
}.

(** What [extractVisibleMessages] finds: the turn containers, and the
    non-nested candidates of [main] when there is one. *)
Record Doc := mkDoc {
  turnContainers : list Turn;
  mainContent : option (list Element)
}.

(** The guarded push of [extractFromTurn] (lines 113-131). *)
Definition pushFromTurn (r : Role) (el : Element)
    (turnTs : option jsstring) (a : Acc) : Acc :=
  let content := extractMessageContent el in
  let hash := hashContent content in
  if truthy content && bool_decide (hash ∉ seenContent a) then
    mkAcc (messages a
             ++ [mkMessage r (trim content) (orElse (foundTimestamp el) turnTs)])
          ({[hash]} ∪ seenContent a)
  else a.

(** [extractFromTurn] (lines 86-132): the user element first, then the
    model element. *)
Definition extractFromTurn (turn : Turn) (a : Acc) : Acc :=
  let a1 :=
    match userEl turn with
    | Some el => pushFromTurn user el (turnTimestamp turn) a
    | None => a
    end in
  match modelEl turn with
  | Some el => pushFromTurn assistant el (turnTimestamp turn) a1
  | None => a1
  end.

(** The guarded push of [extractFromMainContent] (lines 172-178), once
    [determineMessageRole] has returned [r]. *)
Definition pushFromMain (r : Role) (a : Acc) (el : Element) : Acc :=
  let content := extractMessageContent el in
  let hash := hashContent content in
  if truthy content && truthy (trim content)
     && bool_decide (hash ∉ seenContent a) then
    mkAcc (messages a ++ [mkMessage r (trim content) None])
          ({[hash]} ∪ seenContent a)
  else a.

(** [extractFromMainContent] (lines 140-180), from the candidates that
    passed its nesting filter: the two shared objects as the call leaves
    them, and how it ended.  [determineMessageRole] is called on every
    candidate, before anything else is read from it; when it throws the
    [forEach] goes no further. *)
Fixpoint extractFromMainContent (potentialMessages : list Element)
    (a : Acc) : Acc * Completion :=
  match potentialMessages with
  | [] => (a, Returned)
  | el :: rest =>
      match determineMessageRole el with
      | Some r => extractFromMainContent rest (pushFromMain r a el)
      | None => (a, Thrown)
      end
  end.

(** [extractVisibleMessages] (lines 569-587): the two shared objects as
    the call leaves them, and how it ended. *)
Definition tryExtractVisibleMessages (doc : Doc) (a : Acc) : Acc * Completion :=
  match turnContainers doc with
  | [] =>
      match mainContent doc with
      | Some potentialMessages => extractFromMainContent potentialMessages a
      | None => (a, Returned)
      end
  | turns => (foldl (λ a' turn, extractFromTurn turn a') a turns, Returned)
  end.

(** What a call of [extractVisibleMessages] leaves in [messages] and
    [seenContent], whether it returned or was cut short by the throw. *)
Definition extractVisibleMessages (doc : Doc) (a : Acc) : Acc :=
  (tryExtractVisibleMessages doc a).1.

(** U+1F464 and U+1F916 as surrogate pairs, and [' — '] (U+2014). *)
Definition bust : jsstring := [0xD83D; 0xDC64].
Definition robot : jsstring := [0xD83E; 0xDD16].
Definition dash : jsstring := [32; 0x2014; 32].

Definition block (msgs : list Message) (index : nat) (msg : Message) : jsstring :=
  (match role msg with
   | user => js "## " ++ bust ++ js " User"
   | assistant => js "## " ++ robot ++ js " Gemini"
   end)
  ++ (match timestamp msg with
      | Some t => if truthy t then dash ++ js "*" ++ t ++ js "*" else []
      | None => []
      end)
  ++ LF ++ LF
  ++ content msg ++ LF ++ LF
  ++ (if notLast index msgs then rule else []).

(** [formatAsMarkdown] (lines 429-473); [date] and [timezone] are the
    two strings it derives from [new Date()]. *)
Definition formatAsMarkdown (msgs : list Message)
    (title date timezone : jsstring) : jsstring :=
  let userCount := countRole user msgs in
  let geminiCount := countRole assistant msgs in
  let totalCount := length msgs in
  let markdown := js "# " ++ title ++ LF ++ LF in
  let markdown := markdown ++ js "*Exported from Gemini on " ++ date
                    ++ js " " ++ timezone ++ js "*" ++ LF ++ LF in
  let markdown := markdown ++ js "**Messages:** " ++ decimal totalCount
                    ++ js " total (" ++ bust ++ js " User: "
                    ++ decimal userCount ++ js ", " ++ robot
                    ++ js " Gemini: " ++ decimal geminiCount ++ js ")"
                    ++ LF ++ LF in
  let markdown := markdown ++ rule in
  forEachIndexed (block msgs) msgs markdown.

Section Driver.
Context {View : Type} (ops : ViewOps View Doc).
(** [Math.floor(h * 0.9)], a floating-point product. *)
Variable viewportShare : Z → Z.

(** [autoScrollConversation] (lines 596-702), with what every pass
    leaves in the two shared objects: the run of the driver as long as
    no pass throws. *)
Definition autoScrollConversation (v : View) (a : Acc) : Loop View * Exit :=
  let a0 := extractVisibleMessages (document ops v) a in
  let scrollStep := Z.max 500 (viewportShare (getClientHeight ops v)) in
  let '(st, e) :=
    scrollLoop ops extractVisibleMessages 3 50 scrollStep maxScrolls
               (mkLoop v a0 0 0 0) in
  (mkLoop (view st)
          (extractVisibleMessages (document ops (view st)) (acc st))
          (stuckCount st) (scrollCount st) (advances st), e).

(** [autoScrollConversation] (lines 596-702) as the handler awaits it:
    [None] when one of its passes throws, which ends the driver there. *)
Definition tryAutoScrollConversation (v : View) (a : Acc)
  : option (Loop View * Exit) :=
  match tryExtractVisibleMessages (document ops v) a with
  | (_, Thrown) => None
  | (a0, Returned) =>
      let scrollStep := Z.max 500 (viewportShare (getClientHeight ops v)) in
      match tryScrollLoop ops tryExtractVisibleMessages 3 50 scrollStep
                          maxScrolls (mkLoop v a0 0 0 0) with
      | None => None
      | Some (st, e) =>
          match tryExtractVisibleMessages (document ops (view st)) (acc st) with
          | (_, Thrown) => None
          | (a1, Returned) =>
              Some (mkLoop (view st) a1
                           (stuckCount st) (scrollCount st) (advances st), e)
          end
      end
  end.
End Driver.

(** The handler after [await autoScrollConversation(...)] (lines
    717-750): [scrolled] is the array the driver filled, or the message
    of the error caught. *)
Definition respond (scrolled : jsstring + list Message)
    (title date timezone : jsstring) : Response :=
  match scrolled with
  | inl message => Failure (extractionError message)
  | inr msgs =>
      let dedupedMessages := reverse (deduplicateMessages msgs) in
      if (length dedupedMessages =? 0)%nat then Failure noMessagesError
      else Success (formatAsMarkdown dedupedMessages title date timezone)
                   title (length dedupedMessages)
  end.

(** The whole request (lines 714-754).  [typeError] is the message the
    engine gives the [TypeError] of line 219. *)
Definition extractChat {View : Type} (ops : ViewOps View Doc)
    (viewportShare : Z → Z) (typeError : jsstring) (v : View)
    (title date timezone : jsstring) : Response :=
  match tryAutoScrollConversation ops viewportShare v emptyAcc with
  | Some (st, _) => respond (inr (messages (acc st))) title date timezone
  | None => respond (inl typeError) title date timezone
  end.

End V1.

(** ** Revision 2 (lines 757-1366) *)
Module V2.

(** The tag of an element matched by ['user-query, model-response']. *)
Inductive Tag := USER_QUERY | MODEL_RESPONSE.

(** A matched element: its tag and the element whose content is
    extracted (the element itself for a user query, [modelTextEl || el]
    for a model response). *)
Record Located := mkLocated {
  tagName : Tag;
  contentEl : Element
}.

Definition Doc := list Located.

(** One turn of [messageElements.forEach] (lines 1130-1159) over the pair
    [(seenContent, newMessages)]. *)
Definition collect (st : gset jsstring * list Message) (el : Located)
  : gset jsstring * list Message :=
  let '(seen, newMessages) := st in
  let r := match tagName el with USER_QUERY => user | MODEL_RESPONSE => assistant end in
  let content := extractMessageContent (contentEl el) in
  let hash := hashContent content in
  if truthy content && truthy (trim content) && bool_decide (hash ∉ seen) then
    ({[hash]} ∪ seen, newMessages ++ [mkMessage r (trim content) None])
  else (seen, newMessages).

(** [extractVisibleMessages] (lines 1123-1168). *)
Definition extractVisibleMessages (doc : Doc) (prepend : bool) (a : Acc) : Acc :=
  let '(seen, newMessages) := foldl collect (seenContent a, []) doc in
  if prepend && (0 <? length newMessages)%nat then
    mkAcc (newMessages ++ messages a) seen
  else
    mkAcc (messages a ++ newMessages) seen.

(** The emoji literals of this revision are the eight code units the
    file holds: U+00F0 U+0178 U+2018 U+00A4 and U+00F0 U+0178 U+00A4
    U+2013. *)
Definition bust : jsstring := [0xF0; 0x178; 0x2018; 0xA4].
Definition robot : jsstring := [0xF0; 0x178; 0xA4; 0x2013].

Definition block (msgs : list Message) (index : nat) (msg : Message) : jsstring :=
  (match role msg with
   | user => js "## " ++ bust ++ js " User" ++ LF ++ LF
   | assistant => js "## " ++ robot ++ js " Gemini" ++ LF ++ LF
   end)
  ++ content msg ++ LF ++ LF
  ++ (if notLast index msgs then rule else []).

(** [formatAsMarkdown] (lines 988-1026). *)
Definition formatAsMarkdown (msgs : list Message)
    (title date timezone : jsstring) : jsstring :=
  let userCount := countRole user msgs in
  let geminiCount := countRole assistant msgs in
  let totalCount := length msgs in
  let markdown := js "# " ++ title ++ LF ++ LF in
  let markdown := markdown ++ js "*Exported from Gemini on " ++ date
                    ++ js " " ++ timezone ++ js "*" ++ LF ++ LF in
  let markdown := markdown ++ js "**Messages:** " ++ decimal totalCount
                    ++ js " total (" ++ bust ++ js " User: "
                    ++ decimal userCount ++ js ", " ++ robot
                    ++ js " Gemini: " ++ decimal geminiCount ++ js ")"
                    ++ LF ++ LF in
  let markdown := markdown ++ rule in
  forEachIndexed (block msgs) msgs markdown.

Section Driver.
Context {View : Type} (ops : ViewOps View Doc).
(** [Math.floor(h * 0.7)], a floating-point product. *)
Variable viewportShare : Z → Z.

(** [autoScrollConversation] (lines 1177-1313). *)
Definition autoScrollConversation (v : View) (a : Acc) : Loop View * Exit :=
  let v := sleep ops 200 (setScrollTop ops (getScrollHeight ops v) v) in
  let a := extractVisibleMessages (document ops v) false a in
  let v := sleep ops 100 v in
  let a := extractVisibleMessages (document ops v) false a in
  let scrollStep := Z.max 400 (viewportShare (getClientHeight ops v)) in
  let '(st, e) :=
    scrollLoop ops (λ doc a', extractVisibleMessages doc true a') 5 75
               scrollStep maxScrolls (mkLoop v a 0 0 0) in
  let v := view st in
  let a := extractVisibleMessages (document ops v) true (acc st) in
  let v := sleep ops 300 (setScrollTop ops 0 v) in
  let a := extractVisibleMessages (document ops v) true a in
  let v := sleep ops 200 v in
  let a := extractVisibleMessages (document ops v) true a in
  let v := sleep ops 200 (setScrollTop ops 0 v) in
  let a := extractVisibleMessages (document ops v) true a in
  (mkLoop v a (stuckCount st) (scrollCount st) (advances st), e).
End Driver.

(** The handler after [await autoScrollConversation(...)] (lines
    1328-1361). *)
Definition respond (scrolled : jsstring + list Message)
    (title date timezone : jsstring) : Response :=
  match scrolled with
  | inl message => Failure (extractionError message)
  | inr msgs =>
      let dedupedMessages := deduplicateMessages msgs in
      if (length dedupedMessages =? 0)%nat then Failure noMessagesError
      else Success (formatAsMarkdown dedupedMessages title date timezone)
                   title (length dedupedMessages)
  end.

Definition extractChat {View : Type} (ops : ViewOps View Doc)
    (viewportShare : Z → Z) (v : View)
    (title date timezone : jsstring) : Response :=
  let '(st, _) := autoScrollConversation ops viewportShare v emptyAcc in
  respond (inr (messages (acc st))) title date timezone.

End V2.

(** ** Notions used to state the properties *)

(** [t] occurs in [s] as a contiguous run of code units. *)
Definition occursIn (t s : jsstring) : Prop := ∃ l1 l2, s = l1 ++ t ++ l2.

(** The class name [s] speaks of the human participant. *)
Definition humanClass (s : jsstring) : Prop :=
  ∃ word, word ∈ [js "user"; js "query"; js "human"; js "prompt"]
          ∧ occursIn word (toLowerCase s).

(** A string that is empty or starts with a code unit [trim] keeps. *)
Definition cleanStart (s : jsstring) : Prop :=
  match s with
  | [] => True
  | c :: _ => isWhiteSpace c = false
  end.

(** The accumulator invariant: the fingerprints of the accumulated
    messages are pairwise distinct, and all of them are in the seen-set. *)
Definition AccInv (a : Acc) : Prop :=
  NoDup (fingerprint <$> messages a)
  ∧ ∀ m, m ∈ messages a → fingerprint m ∈ seenContent a.

(** The accumulators revision 1 can go through: it starts empty and
    changes by the guarded pushes of [extractFromTurn] and
    [extractFromMainContent] only. *)
Inductive reachable1 : Acc → Prop :=
| reach1_init : reachable1 emptyAcc
| reach1_turn r el turnTs a :
  reachable1 a → reachable1 (V1.pushFromTurn r el turnTs a)
| reach1_main r el a :
  reachable1 a → reachable1 (V1.pushFromMain r a el).

(** The accumulators revision 2 can go through: it starts empty and
    changes by whole passes of [extractVisibleMessages] only. *)
Inductive reachable2 : Acc → Prop :=
| reach2_init : reachable2 emptyAcc
| reach2_pass doc prepend a :
  reachable2 a → reachable2 (V2.extractVisibleMessages doc prepend a).

(** The scroll position never changes, whatever the script or the page
    does. *)
Definition positionFixed {View Doc} (ops : ViewOps View Doc) : Prop :=
  (∀ amount v, getScrollTop ops (scrollBy ops amount v) = getScrollTop ops v)
  ∧ (∀ ms v, getScrollTop ops (sleep ops ms v) = getScrollTop ops v).

(** The scroll extent never grows. *)
Definition extentNotGrowing {View Doc} (ops : ViewOps View Doc) : Prop :=
  (∀ amount v,
     (getScrollHeight ops (scrollBy ops amount v) <= getScrollHeight ops v)%Z)
  ∧ (∀ ms v,
     (getScrollHeight ops (sleep ops ms v) <= getScrollHeight ops v)%Z).

(** *** The layout of the rendered document, part by part *)

Definition titleLine (title : jsstring) : jsstring :=
  js "# " ++ title ++ LF ++ LF.

Definition provenanceLine (date timezone : jsstring) : jsstring :=
  js "*Exported from Gemini on " ++ date ++ js " " ++ timezone ++ js "*"
  ++ LF ++ LF.

Definition summaryLine (bust robot : jsstring) (msgs : list Message) : jsstring :=
  js "**Messages:** " ++ decimal (length msgs) ++ js " total ("
  ++ bust ++ js " User: " ++ decimal (countRole user msgs) ++ js ", "
  ++ robot ++ js " Gemini: " ++ decimal (countRole assistant msgs) ++ js ")"
  ++ LF ++ LF.

Definition roleHeader (bust robot : jsstring) (r : Role) : jsstring :=
  match r with
  | user => js "## " ++ bust ++ js " User"
  | assistant => js "## " ++ robot ++ js " Gemini"
  end.

(** The header suffix for a timestamp. *)
Definition timestampSuffix (t : jsstring) : jsstring :=
  V1.dash ++ js "*" ++ t ++ js "*".

(** A message block with its header suffixed by the timestamp whenever
    the message has one. *)
Definition stampedBlock (bust robot : jsstring) (msg : Message) : jsstring :=
  roleHeader bust robot (role msg)
  ++ (match timestamp msg with Some t => timestampSuffix t | None => [] end)
  ++ LF ++ LF ++ content msg ++ LF ++ LF.

(** A message block with its header suffixed by the timestamp when the
    message has a non-empty one. *)
Definition stampedBlock1 (msg : Message) : jsstring :=
  roleHeader V1.bust V1.robot (role msg)
  ++ (match timestamp msg with
      | Some (c :: t) => timestampSuffix (c :: t)
      | _ => []
      end)
  ++ LF ++ LF ++ content msg ++ LF ++ LF.

(** A message block whose header never carries a timestamp. *)
Definition plainBlock2 (msg : Message) : jsstring :=
  roleHeader V2.bust V2.robot (role msg)
  ++ LF ++ LF ++ content msg ++ LF ++ LF.

(** The parts, with [sep] between consecutive ones and none after the
    last. *)
Fixpoint joinWith (sep : jsstring) (parts : list jsstring) : jsstring :=
  match parts with
  | [] => []
  | [p] => p
  | p :: rest => p ++ sep ++ joinWith sep rest
  end.

(** *** Two simulated views

    Both hold the scroll position at 1000 whatever is asked of them and
    always show the document [shown]; the state is the scroll extent. *)

(** The extent stays as it is. *)
Definition stillView {Doc} (shown : Doc) : ViewOps Z Doc :=
  mkViewOps Z Doc (λ _, 1000%Z) (λ h, h) (λ _, 800%Z)
            (λ _ h, h) (λ _ h, h) (λ _ h, h) (λ _, shown).

(** The extent grows by one on every wait. *)
Definition growingView {Doc} (shown : Doc) : ViewOps Z Doc :=
  mkViewOps Z Doc (λ _, 1000%Z) (λ h, h) (λ _, 800%Z)
            (λ _ h, h) (λ _ h, h) (λ _ h, (h + 1)%Z) (λ _, shown).

(** *** The loop as a recursion on the input

[dedupe_from seen msgs] is what the loop appends to [result] when it is
entered with the set [seen]. *)
Fixpoint dedupe_from (seen : gset jsstring) (msgs : list Message) : list Message :=
  match msgs with
  | [] => []
  | m :: ms =>
      if decide (fingerprint m ∈ seen) then dedupe_from seen ms
      else m :: dedupe_from ({[fingerprint m]} ∪ seen) ms
  end.

(** ** Further functions of the scripts *)

(** *** What a pass would push

The messages an extraction pass builds from a document when nothing has
been seen yet, in the order it visits the elements. *)

(** Revision 1, one element of a turn (lines 113-131). *)
Definition turnCandidate (r : Role) (turnTs : option jsstring) (el : Element)
  : list Message :=
  let content := extractMessageContent el in
  if truthy content
  then [mkMessage r (trim content) (orElse (foundTimestamp el) turnTs)]
  else [].

Definition turnCandidates (turn : V1.Turn) : list Message :=
  (match V1.userEl turn with
   | Some el => turnCandidate user (V1.turnTimestamp turn) el
   | None => []
   end)
  ++ (match V1.modelEl turn with
      | Some el => turnCandidate assistant (V1.turnTimestamp turn) el
      | None => []
      end).

(** Revision 1, one candidate of [main] (lines 172-178) whose role is
    [r]. *)
Definition mainCandidate (r : Role) (el : Element) : list Message :=
  let content := extractMessageContent el in
  if truthy content && truthy (trim content)
  then [mkMessage r (trim content) None]
  else [].

(** The candidates of [main], up to the first one on which
    [determineMessageRole] throws. *)
Fixpoint mainCandidates (potentialMessages : list Element) : list Message :=
  match potentialMessages with
  | [] => []
  | el :: rest =>
      match determineMessageRole el with
      | Some r => mainCandidate r el ++ mainCandidates rest
      | None => []
      end
  end.

Definition candidates1 (doc : V1.Doc) : list Message :=
  match V1.turnContainers doc with
  | [] =>
      match V1.mainContent doc with
      | Some potentialMessages => mainCandidates potentialMessages
      | None => []
      end
  | turns => turns ≫= turnCandidates
  end.

(** The document makes a pass of revision 1 throw: there is no turn
    container, and one of the candidates of [main] is an element whose
    [className] is not a string. *)
Definition svgCandidate (doc : V1.Doc) : bool :=
  match V1.turnContainers doc, V1.mainContent doc with
  | [], Some potentialMessages =>
      existsb (λ el, bool_decide (className el = animatedString))
              potentialMessages
  | _, _ => false
  end.

(** Revision 2, one matched element (lines 1130-1159). *)
Definition located2Candidate (el : V2.Located) : list Message :=
  let content := extractMessageContent (V2.contentEl el) in
  if truthy content && truthy (trim content)
  then [mkMessage (match V2.tagName el with
                   | V2.USER_QUERY => user
                   | V2.MODEL_RESPONSE => assistant
                   end) (trim content) None]
  else [].

Definition candidates2 (doc : V2.Doc) : list Message :=
  doc ≫= located2Candidate.

(** The seen-set holds the fingerprints of the accumulated messages and
    nothing else, and these are pairwise distinct. *)
Definition AccExact (a : Acc) : Prop :=
  NoDup (fingerprint <$> messages a)
  ∧ seenContent a = list_to_set (fingerprint <$> messages a).

(** The accumulator after the messages [found] went through the seen-set
    guard one after the other and the new ones were appended. *)
Definition absorb (a : Acc) (found : list Message) : Acc :=
  mkAcc (messages a ++ dedupe_from (seenContent a) found)
        (seenContent a ∪ list_to_set (fingerprint <$> found)).

(** *** A view that scrolls as asked

[scrollBy(-step)] moves the position up by [step], stopping at 0, and
a wait does not move it. *)
Definition scrollsAsAsked {View Doc} (ops : ViewOps View Doc) (step : Z) : Prop :=
  (∀ v, getScrollTop ops (scrollBy ops (- step) v)
        = Z.max 0 (getScrollTop ops v - step))
  ∧ (∀ ms v, getScrollTop ops (sleep ops ms v) = getScrollTop ops v).

(** The state is the scroll position; the extent is 100000. *)
Definition obedientView {Doc} (shown : Doc) : ViewOps Z Doc :=
  mkViewOps Z Doc (λ top, top) (λ _, 100000%Z) (λ _, 800%Z)
            (λ amount top, Z.max 0 (top + amount)) (λ value _, value)
            (λ _ top, top) (λ _, shown).

(** *** A view with a clock

The view [ops] paired with the milliseconds waited so far: [sleep]
adds to the clock, everything else goes to [ops] unchanged. *)
Definition timed {View Doc} (ops : ViewOps View Doc) : ViewOps (View * Z) Doc :=
  mkViewOps (View * Z) Doc
    (λ vt, getScrollTop ops (fst vt))
    (λ vt, getScrollHeight ops (fst vt))
    (λ vt, getClientHeight ops (fst vt))
    (λ amount vt, (scrollBy ops amount (fst vt), snd vt))
    (λ value vt, (setScrollTop ops value (fst vt), snd vt))
    (λ ms vt, (sleep ops ms (fst vt), (snd vt + ms)%Z))
    (λ vt, document ops (fst vt)).

(** *** The file name of an export (popup.js, lines 49-58) *)

(** [[a-z0-9]]. *)
Definition isFileChar (c : N) : bool :=
  ((97 <=? c) && (c <=? 122)) || ((48 <=? c) && (c <=? 57)).

(** [.replace(/[^a-z0-9]+/g, '-')]: every maximal run of other code units
    becomes one dash; [inRun] tells that the run has its dash already. *)
Fixpoint dashRuns (inRun : bool) (s : jsstring) : jsstring :=
  match s with
  | [] => []
  | c :: s' =>
      if isFileChar c then c :: dashRuns false s'
      else if inRun then dashRuns true s'
      else 45 :: dashRuns true s'
  end.

(** The [-$] alternative of [/^-|-$/g]. *)
Definition dropTrailingDash (s : jsstring) : jsstring :=
  match reverse s with
  | 45 :: r => reverse r
  | _ => s
  end.

(** [.replace(/^-|-$/g, '')]: a dash at index 0 is removed, and so is a
    dash at the last index unless it is that same code unit. *)
Definition stripEnds (s : jsstring) : jsstring :=
  match s with
  | 45 :: r => dropTrailingDash r
  | _ => dropTrailingDash s
  end.

Section GenerateFilename.
(** [String.prototype.toLowerCase], left to the host. *)
Variable lowerCase : jsstring → jsstring.

Definition safeTitle (title : jsstring) : jsstring :=
  substring0 50 (stripEnds (dashRuns false (lowerCase title))).

(** [date] is [new Date().toISOString().split('T')[0]]. *)
Definition generateFilename (title date : jsstring) : jsstring :=
  js "gemini-" ++ safeTitle title ++ js "-" ++ date ++ js ".md".
End GenerateFilename.

(** *** The chat title (lines 394-421 and 953-980) *)

Definition defaultTitle : jsstring := js "Gemini Chat Export".

Section GetChatTitle.
Variable lowerCase : jsstring → jsstring.
(** The test that lets a candidate text through: revision 1 has
    [!text.toLowerCase().includes('gemini') || text.length > 10],
    revision 2 only the first disjunct. *)
Variable accept : jsstring → bool.

(** The [for (const selector of titleSelectors)] loop; each entry is the
    [textContent] of [document.querySelector(selector)], [None] when
    nothing matches. *)
Fixpoint titleFromSelectors (found : list (option jsstring)) : option jsstring :=
  match found with
  | [] => None
  | Some textContent :: rest =>
      let text := trim textContent in
      if truthy text && (length text <? 200)%nat && accept text
      then Some text
      else titleFromSelectors rest
  | None :: rest => titleFromSelectors rest
  end.

Definition getChatTitleWith (found : list (option jsstring))
    (pageTitle : jsstring) : jsstring :=
  match titleFromSelectors found with
  | Some text => text
  | None =>
      if truthy pageTitle && negb (includes (lowerCase pageTitle) (js "gemini"))
      then pageTitle
      else defaultTitle
  end.
End GetChatTitle.

Definition getChatTitle1 (lowerCase : jsstring → jsstring) :=
  getChatTitleWith lowerCase
    (λ text, negb (includes (lowerCase text) (js "gemini"))
             || (10 <? length text)%nat).

Definition getChatTitle2 (lowerCase : jsstring → jsstring) :=
  getChatTitleWith lowerCase
    (λ text, negb (includes (lowerCase text) (js "gemini"))).

(** A text the selector loop returns: not empty, shorter than 200, and
    without [gemini] once lower-cased; revision 1 ([lenient]) also takes
    one that is longer than 10. *)
Definition titleText (lowerCase : jsstring → jsstring) (lenient : bool)
    (text : jsstring) : Prop :=
  text ≠ [] ∧ (length text < 200)%nat
  ∧ (¬ occursIn (js "gemini") (lowerCase text)
     ∨ (lenient = true ∧ (10 < length text)%nat)).

(** *** The timestamp search (lines 11-53) *)

Definition timestampAttrs : list jsstring :=
  [js "data-timestamp"; js "data-time"; js "data-date"; js "data-created";
   js "data-sent-at"; js "data-message-time"].

(** [/\d{1,2}:\d{2}/.test(label)]: a digit, a colon and two digits in a
    row somewhere (a second leading digit changes nothing). *)
Fixpoint clockPattern (label : jsstring) : bool :=
  match label with
  | [] => false
  | c :: rest =>
      (isDigit c
       && match rest with
          | 58 :: d1 :: d2 :: _ => isDigit d1 && isDigit d2
          | _ => false
          end)
      || clockPattern rest
  end.

(** What [extractTimestamp] reads around an element: its attributes,
    those of its ancestors from the parent upwards, the first
    ['time, [class*="time"], ...'] descendant (its [datetime] attribute
    and its text) and the [aria-label] of the first descendant whose
    label contains [":"], ["AM"] or ["PM"]. *)
Record TimestampSite := mkTimestampSite {
  ownAttrs : gmap jsstring jsstring;
  ancestorAttrs : list (gmap jsstring jsstring);
  timeEl : option (option jsstring * jsstring);
  ariaTime : option jsstring
}.

(** [node.getAttribute(attr)] when it is truthy. *)
Definition truthyAttr (attr : jsstring) (node : gmap jsstring jsstring)
  : option jsstring :=
  match node !! attr with
  | Some value => if truthy value then Some value else None
  | None => None
  end.

(** The first truthy hit of a list of lookups. *)
Fixpoint firstHit {A B} (look : A → option B) (l : list A) : option B :=
  match l with
  | [] => None
  | x :: rest =>
      match look x with
      | Some y => Some y
      | None => firstHit look rest
      end
  end.

(** The body of [for (const attr of timestampAttrs)]: the element, then
    at most five ancestors. *)
Definition attrOnPath (site : TimestampSite) (attr : jsstring) : option jsstring :=
  firstHit (truthyAttr attr) (ownAttrs site :: take 5 (ancestorAttrs site)).

Section ExtractTimestamp.
Variable toLocaleString : Z → jsstring.
Variable dateParse : jsstring → option Z.

Definition extractTimestamp (site : TimestampSite) : option jsstring :=
  match firstHit (attrOnPath site) timestampAttrs with
  | Some value => Some (formatTimestamp toLocaleString dateParse value)
  | None =>
      let fromAria :=
        match ariaTime site with
        | Some label =>
            if truthy label && clockPattern label then Some label else None
        | None => None
        end in
      match timeEl site with
      | Some (datetimeAttr, textContent) =>
          let datetime :=
            match orElse datetimeAttr None with
            | Some d => d
            | None => trim textContent
            end in
          if truthy datetime
          then Some (formatTimestamp toLocaleString dateParse datetime)
          else fromAria
      | None => fromAria
      end
  end.
End ExtractTimestamp.

Lemma foldl_dedupe_step seen result msgs :
  foldl dedupe_step (seen, result) msgs
  = (seen ∪ list_to_set (fingerprint <$> msgs), result ++ dedupe_from seen msgs).
Proof.
  revert seen result. induction msgs as [|m ms IH]; intros seen result; simpl.
  - f_equal; [set_solver | by rewrite app_nil_r].
  - unfold fingerprint at 2. fold (fingerprint m).
    destruct (decide (fingerprint m ∈ seen)) as [Hin|Hnin].
    + rewrite IH. f_equal. apply set_eq. set_solver.
    + rewrite IH. f_equal; [apply set_eq; set_solver | by rewrite <- app_assoc].
Qed.

Lemma deduplicateMessages_eq msgs :
  deduplicateMessages msgs = dedupe_from ∅ msgs.
Proof. unfold deduplicateMessages. by rewrite foldl_dedupe_step. Qed.

Lemma dedupe_from_sublist seen msgs : dedupe_from seen msgs `sublist_of` msgs.
Proof.
  revert seen. induction msgs as [|m ms IH]; intros seen; simpl; [constructor|].
  case_decide; [apply sublist_cons | apply sublist_skip]; apply IH.
Qed.

Lemma dedupe_from_elem seen msgs m :
  m ∈ dedupe_from seen msgs → m ∈ msgs ∧ fingerprint m ∉ seen.
Proof.
  revert seen. induction msgs as [|x ms IH]; intros seen; simpl.
  - by intros ?%elem_of_nil.
  - case_decide as Hx.
    + intros [? ?]%IH. split; [by right | done].
    + intros [->|Hm]%elem_of_cons; [split; [by left | done]|].
      apply IH in Hm as [? ?]. split; [by right | set_solver].
Qed.

Lemma dedupe_from_NoDup seen msgs :
  NoDup (fingerprint <$> dedupe_from seen msgs).
Proof.
  revert seen. induction msgs as [|x ms IH]; intros seen; simpl; [constructor|].
  case_decide as Hx; [apply IH|].
  rewrite fmap_cons. apply NoDup_cons. split; [|apply IH].
  intros (m & Hfp & Hm)%list_elem_of_fmap.
  apply dedupe_from_elem in Hm as [_ Hm]. set_solver.
Qed.

Lemma filter_none {A} (P : A → Prop) `{∀ x, Decision (P x)} (l : list A) :
  (∀ x, x ∈ l → ¬ P x) → filter P l = [].
Proof.
  induction l as [|x l IH]; intros Hl; [done|].
  rewrite filter_cons, decide_False by (apply Hl; by left).
  apply IH. intros y Hy. apply Hl. by right.
Qed.

(** A fingerprint already seen never reappears in the output. *)
Lemma dedupe_from_filter_seen seen msgs h :
  h ∈ seen → filter (λ m, fingerprint m = h) (dedupe_from seen msgs) = [].
Proof.
  intros Hh. apply filter_none.
  intros m [_ Hm]%dedupe_from_elem Heq. by subst h.
Qed.

(** Of the messages with an unseen fingerprint [h], the output holds the
    first one of the input and no other. *)
Lemma dedupe_from_filter_first seen msgs h :
  h ∉ seen →
  filter (λ m, fingerprint m = h) (dedupe_from seen msgs)
  = option_list (head (filter (λ m, fingerprint m = h) msgs)).
Proof.
  revert seen. induction msgs as [|x ms IH]; intros seen Hh; simpl; [done|].
  rewrite (filter_cons _ x ms).
  destruct (decide (fingerprint x ∈ seen)) as [Hx|Hx].
  - destruct (decide (fingerprint x = h)) as [<-|Hne]; [done|]. by apply IH.
  - rewrite filter_cons. destruct (decide (fingerprint x = h)) as [<-|Hne].
    + simpl. f_equal. apply dedupe_from_filter_seen. set_solver.
    + apply IH. set_solver.
Qed.

Lemma dedupe_from_length seen msgs :
  length (dedupe_from seen msgs)
  = size (list_to_set (fingerprint <$> msgs) ∖ seen : gset jsstring).
Proof.
  revert seen. induction msgs as [|x ms IH]; intros seen.
  - simpl. replace (∅ ∖ seen) with (∅ : gset jsstring) by set_solver. done.
  - rewrite fmap_cons, list_to_set_cons. cbn [dedupe_from].
    set (F := list_to_set (fingerprint <$> ms) : gset jsstring) in *.
    case_decide as Hx.
    + rewrite IH. f_equal. apply set_eq. set_solver.
    + cbn [length]. rewrite IH.
      assert (({[fingerprint x]} ∪ F) ∖ seen
              = {[fingerprint x]} ∪ (F ∖ ({[fingerprint x]} ∪ seen))) as ->.
      { apply set_eq. intros y.
        rewrite !elem_of_union, !elem_of_difference, !elem_of_union,
          !elem_of_singleton.
        destruct (decide (y = fingerprint x)) as [->|]; naive_solver. }
      pose proof (size_union (C:=gset jsstring) {[fingerprint x]}
                    (F ∖ ({[fingerprint x]} ∪ seen))) as Hsize.
      rewrite Hsize by set_solver. by rewrite size_singleton.
Qed.

(** On an input whose fingerprints are pairwise distinct and unseen, the
    loop keeps everything. *)
Lemma dedupe_from_id seen msgs :
  NoDup (fingerprint <$> msgs) →
  (∀ m, m ∈ msgs → fingerprint m ∉ seen) →
  dedupe_from seen msgs = msgs.
Proof.
  revert seen. induction msgs as [|x ms IH]; intros seen Hnd Hseen; simpl; [done|].
  rewrite fmap_cons in Hnd. apply NoDup_cons in Hnd as [Hx Hnd].
  rewrite decide_False by (apply Hseen; by left).
  f_equal. apply IH; [done|].
  intros m Hm. specialize (Hseen m ltac:(by right)).
  assert (fingerprint m ≠ fingerprint x).
  { intros Heq. apply Hx. rewrite <- Heq. by apply list_elem_of_fmap_2. }
  set_solver.
Qed.

(** The kept/dropped decisions depend on the contents alone. *)
Lemma dedupe_from_fmap (f : Message → Message) seen msgs :
  (∀ m, content (f m) = content m) →
  dedupe_from seen (f <$> msgs) = f <$> dedupe_from seen msgs.
Proof.
  intros Hf. revert seen. induction msgs as [|x ms IH]; intros seen; simpl; [done|].
  assert (fingerprint (f x) = fingerprint x) as -> by (unfold fingerprint; by rewrite Hf).
  case_decide; [apply IH|]. rewrite fmap_cons. f_equal. apply IH.
Qed.

Lemma dedupe_from_app seen l1 l2 :
  dedupe_from seen (l1 ++ l2)
  = dedupe_from seen l1
    ++ dedupe_from (seen ∪ list_to_set (fingerprint <$> l1)) l2.
Proof.
  revert seen. induction l1 as [|x l1 IH]; intros seen; simpl.
  - f_equal. apply set_eq. set_solver.
  - case_decide as Hx.
    + rewrite IH. do 2 f_equal. apply set_eq. set_solver.
    + simpl. rewrite IH. do 3 f_equal. apply set_eq. set_solver.
Qed.

(** ** Properties of the fingerprint and of deduplication *)

Example hashContent_trims_prefix :
  hashContent (js "  Hello  ") = js "Hello|9".
Proof. reflexivity. Qed.

Example hashContent_empty : hashContent [] = [].
Proof. reflexivity. Qed.

Example hashContent_blank : hashContent (js "   ") = js "|3".
Proof. reflexivity. Qed.

Example deduplicateMessages_sample :
  deduplicateMessages
    [mkMessage user (js "a") None; mkMessage assistant (js "b") None;
     mkMessage assistant (js "a") (Some (js "9:41")); mkMessage user (js "c") None]
  = [mkMessage user (js "a") None; mkMessage assistant (js "b") None;
     mkMessage user (js "c") None].
Proof. vm_compute. reflexivity. Qed.

(** C3: [hashContent] is a function of the content string alone (equal
    strings have equal fingerprints), and on a non-empty content it is the
    trimmed first 100 code units, then the separator ["|"], then the
    decimal length of the whole content. *)
Theorem hashContent_prefix_and_length (content other : jsstring) :
  content ≠ [] →
  hashContent content
  = trim (take 100 content) ++ js "|" ++ decimal (length content)
  ∧ (other = content → hashContent other = hashContent content).
Proof.
  intros Hne. split; [|by intros ->].
  destruct content; [done | reflexivity].
Qed.

Lemma hashContent_prefix_and_length_witness :
  js "  Hello  " ≠ []
  ∧ hashContent (js "  Hello  ")
    = trim (take 100 (js "  Hello  ")) ++ js "|" ++ decimal (length (js "  Hello  "))
  ∧ (js "  Hello  " = js "  Hello  "
     → hashContent (js "  Hello  ") = hashContent (js "  Hello  ")).
Proof.
  split; [discriminate|].
  apply (hashContent_prefix_and_length (js "  Hello  ") (js "  Hello  ")).
  discriminate.
Defined.


Lemma deduplicateMessages_NoDup msgs :
  NoDup (fingerprint <$> deduplicateMessages msgs).
Proof. rewrite deduplicateMessages_eq. apply dedupe_from_NoDup. Qed.

Lemma deduplicateMessages_id msgs :
  NoDup (fingerprint <$> msgs) → deduplicateMessages msgs = msgs.
Proof.
  intros Hnd. rewrite deduplicateMessages_eq. apply dedupe_from_id; [done|].
  set_solver.
Qed.

(** C9: deduplicating twice is the same as deduplicating once. *)
Theorem dedupe_idempotent (msgs : list Message) :
  deduplicateMessages (deduplicateMessages msgs) = deduplicateMessages msgs.
Proof. apply deduplicateMessages_id, deduplicateMessages_NoDup. Qed.

(** C10: only the content decides.  When two messages have contents with
    the same fingerprint and the first of them is the first of the input
    with that fingerprint, the later one is dropped whole, the output holds
    the first one unchanged (its own role and timestamp) as the only entry
    with that fingerprint, and rewriting roles and timestamps of the input
    rewrites the output in the same way. *)
Theorem dedupe_compares_content_only
    (m1 m2 : Message) (before between after : list Message) :
  hashContent (content m1) = hashContent (content m2) →
  (∀ m, m ∈ before → fingerprint m ≠ fingerprint m1) →
  deduplicateMessages (before ++ m1 :: between ++ m2 :: after)
  = deduplicateMessages (before ++ m1 :: between ++ after)
  ∧ filter (λ m, fingerprint m = fingerprint m1)
           (deduplicateMessages (before ++ m1 :: between ++ m2 :: after))
    = [m1]
  ∧ ∀ f : Message → Message, (∀ m, content (f m) = content m) →
      deduplicateMessages (f <$> (before ++ m1 :: between ++ m2 :: after))
      = f <$> deduplicateMessages (before ++ m1 :: between ++ m2 :: after).
Proof.
  intros Hfp Hfirst. rewrite !deduplicateMessages_eq. split; [|split].
  - change (before ++ m1 :: between ++ m2 :: after)
      with (before ++ (m1 :: between) ++ m2 :: after).
    change (before ++ m1 :: between ++ after)
      with (before ++ (m1 :: between) ++ after).
    rewrite !(assoc_L (++) before), !dedupe_from_app. f_equal.
    cbn [dedupe_from]. rewrite decide_True; [done|].
    assert (fingerprint m2 = fingerprint m1) as ->
      by (unfold fingerprint; congruence).
    rewrite fmap_app, fmap_cons. set_solver.
  - rewrite dedupe_from_filter_first by set_solver.
    rewrite filter_app, (filter_none _ before) by (intros ???; by eapply Hfirst).
    simpl. rewrite filter_cons, decide_True by done. done.
  - intros f Hf. rewrite deduplicateMessages_eq. by apply dedupe_from_fmap.
Qed.

Lemma dedupe_compares_content_only_witness :
  let m1 := mkMessage user (js "Same text") None in
  let m2 := mkMessage assistant (js "Same text") (Some (js "10:30")) in
  hashContent (content m1) = hashContent (content m2)
  ∧ deduplicateMessages [m1; m2] = deduplicateMessages [m1]
  ∧ filter (λ m, fingerprint m = fingerprint m1) (deduplicateMessages [m1; m2])
    = [m1].
Proof.
  intros m1 m2. split; [reflexivity|].
  destruct (dedupe_compares_content_only m1 m2 [] [] [] eq_refl) as (H1 & H2 & _).
  - intros m Hm. by apply elem_of_nil in Hm.
  - split; [exact H1 | exact H2].
Defined.

(** ** Trimming *)

Lemma trimStart_clean s : cleanStart (trimStart s).
Proof.
  induction s as [|c s IH]; simpl; [done|].
  destruct (isWhiteSpace c) eqn:Hc; [done | exact Hc].
Qed.

Lemma trimStart_of_clean s : cleanStart s → trimStart s = s.
Proof. destruct s as [|c s]; simpl; [done|]. by intros ->. Qed.

Lemma trimStart_idempotent s : trimStart (trimStart s) = trimStart s.
Proof. apply trimStart_of_clean, trimStart_clean. Qed.

Lemma trimStart_snoc s c :
  isWhiteSpace c = false → trimStart (s ++ [c]) = trimStart s ++ [c].
Proof.
  intros Hc. induction s as [|d s IH]; simpl; [by rewrite Hc|].
  by destruct (isWhiteSpace d).
Qed.

Lemma trimEnd_cons c s :
  isWhiteSpace c = false → trimEnd (c :: s) = c :: trimEnd s.
Proof.
  intros Hc. unfold trimEnd.
  by rewrite reverse_cons, trimStart_snoc, reverse_snoc.
Qed.

Lemma trimEnd_clean s : cleanStart s → cleanStart (trimEnd s).
Proof.
  destruct s as [|c s]; [done|]. simpl. intros Hc. by rewrite trimEnd_cons.
Qed.

Lemma trimEnd_idempotent s : trimEnd (trimEnd s) = trimEnd s.
Proof.
  unfold trimEnd. by rewrite reverse_involutive, trimStart_idempotent.
Qed.

Lemma trim_idempotent s : trim (trim s) = trim s.
Proof.
  unfold trim.
  rewrite (trimStart_of_clean (trimEnd (trimStart s)))
    by apply trimEnd_clean, trimStart_clean.
  apply trimEnd_idempotent.
Qed.

(** The content pushed, [content.trim()], has the fingerprint tested. *)
Lemma fingerprint_pushed r el ts :
  fingerprint (mkMessage r (trim (extractMessageContent el)) ts)
  = hashContent (extractMessageContent el).
Proof.
  unfold fingerprint, extractMessageContent. simpl. by rewrite trim_idempotent.
Qed.

(** ** The accumulator invariant *)

Lemma AccInv_empty : AccInv emptyAcc.
Proof. split; [constructor | by intros m ?%elem_of_nil]. Qed.

(** A push guarded by the membership test keeps the invariant. *)
Lemma AccInv_push a msg :
  AccInv a → fingerprint msg ∉ seenContent a →
  AccInv (mkAcc (messages a ++ [msg]) ({[fingerprint msg]} ∪ seenContent a)).
Proof.
  intros [Hnd Hseen] Hnew. split; simpl.
  - rewrite fmap_app. apply NoDup_app. split; [done|]. split; [|apply NoDup_singleton].
    intros h (m & -> & Hm)%list_elem_of_fmap Hh.
    apply list_elem_of_singleton in Hh. apply Hnew. rewrite <- Hh. by apply Hseen.
  - intros m [Hm| ->%list_elem_of_singleton]%elem_of_app; [|set_solver].
    apply Hseen in Hm. set_solver.
Qed.

Lemma AccInv_pushFromTurn r el turnTs a :
  AccInv a → AccInv (V1.pushFromTurn r el turnTs a).
Proof.
  intros Ha. unfold V1.pushFromTurn.
  destruct (truthy _); [|done]. simpl. case_bool_decide as Hnew; [|done].
  rewrite <- (fingerprint_pushed r el (orElse (foundTimestamp el) turnTs)) in *.
  by apply AccInv_push.
Qed.

Lemma AccInv_pushFromMain r a el :
  AccInv a → AccInv (V1.pushFromMain r a el).
Proof.
  intros Ha. unfold V1.pushFromMain.
  destruct (truthy _ && truthy _); [|done]. simpl.
  case_bool_decide as Hnew; [|done].
  rewrite <- (fingerprint_pushed r el None) in *.
  by apply AccInv_push.
Qed.

Lemma reachable1_AccInv a : reachable1 a → AccInv a.
Proof.
  induction 1; auto using AccInv_empty, AccInv_pushFromTurn, AccInv_pushFromMain.
Qed.

Lemma reachable1_extractFromTurn turn a :
  reachable1 a → reachable1 (V1.extractFromTurn turn a).
Proof.
  intros Ha. unfold V1.extractFromTurn.
  destruct (V1.userEl turn), (V1.modelEl turn); eauto using reachable1.
Qed.

Lemma reachable1_extractVisibleMessages doc a :
  reachable1 a → reachable1 (V1.extractVisibleMessages doc a).
Proof.
  intros Ha. unfold V1.extractVisibleMessages, V1.tryExtractVisibleMessages.
  destruct (V1.turnContainers doc) as [|t ts].
  - destruct (V1.mainContent doc) as [els|]; [|done].
    revert a Ha.
    induction els as [|el els IH]; intros a Ha; simpl; [done|].
    destruct (determineMessageRole el) as [r|]; [|done].
    apply IH. by constructor.
  - cbn [fst]. generalize (t :: ts). intros turns. revert a Ha.
    induction turns as [|t' turns IH]; intros a Ha; simpl; [done|].
    apply IH. by apply reachable1_extractFromTurn.
Qed.

Lemma AccInv_collect old seen newMessages el :
  AccInv (mkAcc (old ++ newMessages) seen) →
  AccInv (mkAcc (old ++ snd (V2.collect (seen, newMessages) el))
                (fst (V2.collect (seen, newMessages) el))).
Proof.
  intros Ha. unfold V2.collect.
  destruct (truthy _ && truthy _); [|done]. simpl.
  case_bool_decide as Hnew; [|done]. simpl.
  set (r := match V2.tagName el with V2.USER_QUERY => user | _ => assistant end).
  rewrite <- (fingerprint_pushed r (V2.contentEl el) None) in *.
  rewrite (assoc_L (++)).
  by apply (AccInv_push (mkAcc (old ++ newMessages) seen)).
Qed.

Lemma AccInv_foldl_collect old doc seen newMessages :
  AccInv (mkAcc (old ++ newMessages) seen) →
  AccInv (mkAcc (old ++ snd (foldl V2.collect (seen, newMessages) doc))
                (fst (foldl V2.collect (seen, newMessages) doc))).
Proof.
  revert seen newMessages.
  induction doc as [|el doc IH]; intros seen newMessages Ha; [done|].
  change (foldl V2.collect (seen, newMessages) (el :: doc))
    with (foldl V2.collect (V2.collect (seen, newMessages) el) doc).
  pose proof (AccInv_collect old seen newMessages el Ha) as Hstep.
  destruct (V2.collect (seen, newMessages) el) as [seen' new'].
  by apply IH.
Qed.

Lemma AccInv_swap l1 l2 seen :
  AccInv (mkAcc (l1 ++ l2) seen) → AccInv (mkAcc (l2 ++ l1) seen).
Proof.
  intros [Hnd Hseen]. split; simpl in *.
  - rewrite fmap_app in *. apply NoDup_app in Hnd as (H1 & H12 & H2).
    apply NoDup_app. split; [done|]. split; [|done].
    intros h Hh2 Hh1. by eapply H12.
  - intros m Hm. apply Hseen. set_solver.
Qed.

Lemma AccInv_extractVisibleMessages2 doc prepend a :
  AccInv a → AccInv (V2.extractVisibleMessages doc prepend a).
Proof.
  intros Ha. unfold V2.extractVisibleMessages.
  pose proof (AccInv_foldl_collect (messages a) doc (seenContent a) []) as H.
  rewrite app_nil_r in H. destruct a as [old seen]. specialize (H Ha).
  simpl in *. destruct (foldl V2.collect (seen, []) doc) as [seen' new'].
  simpl in H. destruct (prepend && _); [by apply AccInv_swap | done].
Qed.

Lemma reachable2_AccInv a : reachable2 a → AccInv a.
Proof.
  induction 1; auto using AccInv_empty, AccInv_extractVisibleMessages2.
Qed.

(** C4: every accumulator either revision can go through, from the empty
    one created by the handler and through guarded pushes and extraction
    passes only, holds messages with pairwise distinct fingerprints, each
    of them recorded in the seen-set. *)
Theorem accumulator_fingerprints_distinct (a : Acc) :
  reachable1 a ∨ reachable2 a →
  NoDup (fingerprint <$> messages a)
  ∧ ∀ m, m ∈ messages a → fingerprint m ∈ seenContent a.
Proof. intros [H|H]; [by apply reachable1_AccInv | by apply reachable2_AccInv]. Qed.

(** The final [deduplicateMessages] pass drops nothing from such an
    accumulator. *)
Lemma deduplicateMessages_accumulated a :
  AccInv a → deduplicateMessages (messages a) = messages a.
Proof. intros [Hnd _]. by apply deduplicateMessages_id. Qed.

Lemma accumulator_fingerprints_distinct_witness :
  let doc :=
    [V2.mkLocated V2.USER_QUERY (mkElement (classString []) None None (js " Hi "));
     V2.mkLocated V2.MODEL_RESPONSE (mkElement (classString []) None None (js "Hello"));
     V2.mkLocated V2.USER_QUERY (mkElement (classString []) None None (js "Hi"))] in
  let a := V2.extractVisibleMessages doc true emptyAcc in
  (reachable1 a ∨ reachable2 a)
  ∧ NoDup (fingerprint <$> messages a)
  ∧ ∀ m, m ∈ messages a → fingerprint m ∈ seenContent a.
Proof.
  intros doc a.
  assert (H : reachable1 a ∨ reachable2 a)
    by (right; apply reach2_pass, reach2_init).
  exact (conj H (accumulator_fingerprints_distinct a H)).
Defined.

(** ** The scroll loop *)

Local Open Scope nat_scope.

Section LoopAccumulator.
Context {View Doc : Type} (ops : ViewOps View Doc).
Variable extractPass : Doc → Acc → Acc.
Variables (adaptiveMax : nat) (adaptiveDelay scrollStep : Z).
Variable P : Acc → Prop.
Hypothesis P_pass : ∀ doc a, P a → P (extractPass doc a).

Lemma adaptiveWait_acc budget v a h :
  P a → P (adaptiveWait ops extractPass adaptiveDelay budget v a h).1.2.
Proof.
  revert v a h. induction budget as [|b IH]; intros v a h Ha; simpl; [done|].
  destruct (_ && _); simpl; [by apply P_pass|]. by apply IH, P_pass.
Qed.

Lemma iteration_acc st :
  P (acc st) →
  P (acc (iteration ops extractPass adaptiveMax adaptiveDelay scrollStep st).1).
Proof.
  intros Ha. unfold iteration.
  pose proof (adaptiveWait_acc adaptiveMax
    (sleep ops 50 (scrollBy ops (- scrollStep) (view st)))
    (extractPass (document ops (sleep ops 50 (scrollBy ops (- scrollStep) (view st))))
                 (acc st))
    (getScrollHeight ops (sleep ops 50 (scrollBy ops (- scrollStep) (view st))))
    (P_pass _ _ Ha)) as Hw.
  destruct (adaptiveWait _ _ _ _ _ _ _) as [[v2 a2] h2]. simpl in Hw.
  repeat (destruct (_ : bool); simpl; try done).
Qed.

Lemma scrollLoop_acc remaining st :
  P (acc st) →
  P (acc (scrollLoop ops extractPass adaptiveMax adaptiveDelay scrollStep
                     remaining st).1).
Proof.
  revert st. induction remaining as [|n IH]; intros st Ha; simpl; [done|].
  pose proof (iteration_acc st Ha) as Hi.
  destruct (iteration _ _ _ _ _ st) as [st' [e|]]; simpl in *; [done|].
  by apply IH.
Qed.
End LoopAccumulator.

(** The accumulator the driver of revision 1 returns is one of
    [reachable1], so C4 applies to it. *)
Lemma autoScrollConversation1_reachable {View} (ops : ViewOps View V1.Doc)
    viewportShare v :
  reachable1 (acc (V1.autoScrollConversation ops viewportShare v emptyAcc).1).
Proof.
  unfold V1.autoScrollConversation.
  match goal with |- context [scrollLoop ?o ?e ?m ?d ?s ?n ?st] =>
    pose proof (scrollLoop_acc o e m d s reachable1
                  reachable1_extractVisibleMessages n st) as H;
    destruct (scrollLoop o e m d s n st) as [st' e'] end.
  simpl in *. apply reachable1_extractVisibleMessages, H.
  apply reachable1_extractVisibleMessages, reach1_init.
Qed.

(** Likewise for revision 2. *)
Lemma autoScrollConversation2_reachable {View} (ops : ViewOps View V2.Doc)
    viewportShare v :
  reachable2 (acc (V2.autoScrollConversation ops viewportShare v emptyAcc).1).
Proof.
  unfold V2.autoScrollConversation.
  match goal with |- context [scrollLoop ?o ?e ?m ?d ?s ?n ?st] =>
    pose proof (scrollLoop_acc o e m d s reachable2
                  (λ doc a, reach2_pass doc true a) n st) as H;
    destruct (scrollLoop o e m d s n st) as [st' e'] end.
  simpl in *. do 4 apply reach2_pass. apply H. do 2 apply reach2_pass.
  apply reach2_init.
Qed.

Section LoopBound.
Context {View Doc : Type} (ops : ViewOps View Doc).
Variable extractPass : Doc → Acc → Acc.
Variables (adaptiveMax : nat) (adaptiveDelay scrollStep : Z).

Local Abbreviation iter := (iteration ops extractPass adaptiveMax adaptiveDelay scrollStep).
Local Abbreviation loop := (scrollLoop ops extractPass adaptiveMax adaptiveDelay scrollStep).

(** Every turn of the loop makes exactly one [scrollBy] call; one that
    does not break adds one to [scrollCount]; no [break] is a hard-cap
    exit. *)
Lemma iteration_counts st :
  advances (iter st).1 = S (advances st)
  ∧ (iter st).2 ≠ Some HardCap
  ∧ ((iter st).2 = None → scrollCount (iter st).1 = S (scrollCount st)).
Proof.
  unfold iteration. destruct (adaptiveWait _ _ _ _ _ _ _) as [[v2 a2] h2].
  repeat (destruct (_ : bool); simpl); done.
Qed.

Lemma scrollLoop_advances remaining st :
  advances (loop remaining st).1 ≤ advances st + remaining
  ∧ ((loop remaining st).2 = HardCap →
       advances (loop remaining st).1 = advances st + remaining
       ∧ scrollCount (loop remaining st).1 = scrollCount st + remaining).
Proof.
  revert st. induction remaining as [|n IH]; intros st; simpl.
  - split; [lia|]. intros _. lia.
  - destruct (iteration_counts st) as (Hadv & Hcap & Hcount).
    destruct (iter st) as [st' [e|]]; simpl in *.
    + split; [lia|]. intros ->. done.
    + destruct (IH st') as [Hle Heq]. rewrite Hadv in *.
      split; [lia|]. intros He. destruct (Heq He) as [-> ->].
      rewrite (Hcount eq_refl). lia.
Qed.

Hypothesis fixed : positionFixed ops.
Hypothesis level : extentNotGrowing ops.

Lemma adaptiveWait_fixed budget v a h bound :
  (h <= bound)%Z → (getScrollHeight ops v <= bound)%Z →
  let r := adaptiveWait ops extractPass adaptiveDelay budget v a h in
  (r.2 <= bound)%Z ∧ getScrollTop ops r.1.1 = getScrollTop ops v.
Proof.
  destruct fixed as [_ Hsleep], level as [_ Hgrow].
  revert v a h. induction budget as [|b IH]; intros v a h Hh Hv; simpl; [done|].
  pose proof (Hgrow adaptiveDelay v). pose proof (Hsleep adaptiveDelay v).
  destruct (_ && _); simpl; [done|].
  destruct (IH (sleep ops adaptiveDelay v)
               (extractPass (document ops (sleep ops adaptiveDelay v)) a)
               (getScrollHeight ops (sleep ops adaptiveDelay v))) as [? ?];
    [lia | lia |]. split; [done | congruence].
Qed.

(** With a fixed position and an extent that does not grow, a turn of the
    loop adds one to [stuckCount] and breaks at three, or else at the top. *)
Lemma iteration_fixed st :
  stuckCount (iter st).1 = S (stuckCount st)
  ∧ getScrollTop ops (view (iter st).1) = getScrollTop ops (view st)
  ∧ (iter st).2
    = if (3 <=? S (stuckCount st))%nat then Some Stuck
      else if (getScrollTop ops (view st) <=? 10)%Z then Some AtTop
      else None.
Proof.
  unfold iteration. destruct fixed as [Hby Hsleep], level as [Hgby Hgsleep].
  set (v1 := sleep ops 50 (scrollBy ops (- scrollStep) (view st))).
  assert (getScrollTop ops v1 = getScrollTop ops (view st)) as Htop
    by (unfold v1; by rewrite Hsleep, Hby).
  assert (getScrollHeight ops v1 <= getScrollHeight ops (view st))%Z as Hh.
  { unfold v1. etrans; [apply Hgsleep | apply Hgby]. }
  destruct (adaptiveWait_fixed adaptiveMax v1
              (extractPass (document ops v1) (acc st))
              (getScrollHeight ops v1) (getScrollHeight ops (view st)))
    as [Hle Hsame]; [lia | done |].
  destruct (adaptiveWait _ _ _ _ _ _ _) as [[v2 a2] h2]. simpl in Hle, Hsame.
  rewrite Htop, Z.sub_diag. change (Z.abs 0 <? 10)%Z with true.
  replace (h2 >? getScrollHeight ops (view st))%Z with false by lia.
  cbn [andb].
  destruct (3 <=? S (stuckCount st))%nat; simpl; [by rewrite Hsame, Htop|].
  destruct (getScrollTop ops (view st) <=? 10)%Z; simpl; by rewrite Hsame, Htop.
Qed.

Lemma scrollLoop_fixed_at_top remaining st :
  stuckCount st ≤ 1 → (getScrollTop ops (view st) <= 10)%Z →
  (loop (S remaining) st).2 = AtTop
  ∧ advances (loop (S remaining) st).1 = S (advances st).
Proof.
  intros Hs Htop. cbn [scrollLoop].
  destruct (iteration_fixed st) as (_ & _ & He).
  destruct (iteration_counts st) as (Hadv & _).
  destruct (iter st) as [st' e]. cbn [fst snd] in *. subst e.
  rewrite (proj2 (Nat.leb_gt 3 (S (stuckCount st)))) by lia.
  replace (getScrollTop ops (view st) <=? 10)%Z with true by lia. done.
Qed.

Lemma scrollLoop_fixed_stuck remaining st :
  stuckCount st ≤ 2 → (10 < getScrollTop ops (view st))%Z →
  3 - stuckCount st ≤ remaining →
  (loop remaining st).2 = Stuck
  ∧ advances (loop remaining st).1 = advances st + (3 - stuckCount st).
Proof.
  revert st. induction remaining as [|n IH]; intros st Hs Htop Hn; [lia|].
  cbn [scrollLoop].
  destruct (iteration_fixed st) as (Hstuck & Hview & He).
  destruct (iteration_counts st) as (Hadv & _).
  destruct (iter st) as [st' e]. cbn [fst snd] in *. subst e.
  destruct (decide (stuckCount st = 2)) as [H2|H2].
  - rewrite H2. cbn. split; [done | lia].
  - rewrite (proj2 (Nat.leb_gt 3 (S (stuckCount st)))) by lia.
    replace (getScrollTop ops (view st) <=? 10)%Z with false by lia.
    destruct (IH st') as [-> ->]; [lia | lia | lia |]. split; [done | lia].
Qed.
End LoopBound.

Lemma scroll_loop_exit_when_fixed {View Doc} (ops : ViewOps View Doc)
    (extractPass : Doc → Acc → Acc) (adaptiveMax : nat)
    (adaptiveDelay scrollStep : Z) (v : View) (a : Acc) :
  positionFixed ops → extentNotGrowing ops →
  let run := scrollLoop ops extractPass adaptiveMax adaptiveDelay scrollStep
                        maxScrolls (mkLoop v a 0 0 0) in
  if (getScrollTop ops v <=? 10)%Z
  then run.2 = AtTop ∧ advances run.1 = 1
  else run.2 = Stuck ∧ advances run.1 = 3.
Proof.
  intros Hfixed Hlevel run. destruct (Z.leb_spec (getScrollTop ops v) 10).
  - apply (scrollLoop_fixed_at_top ops extractPass adaptiveMax adaptiveDelay
             scrollStep Hfixed Hlevel 499 (mkLoop v a 0 0 0)); simpl; lia.
  - apply (scrollLoop_fixed_stuck ops extractPass adaptiveMax adaptiveDelay
             scrollStep Hfixed Hlevel maxScrolls (mkLoop v a 0 0 0));
      unfold maxScrolls; simpl; lia.
Qed.




(** The drivers of both revisions enter the loop with fresh counters, so
    they make at most 500 advances. *)
Lemma autoScrollConversation_advances {View} :
  (∀ (ops : ViewOps View V1.Doc) share v a,
     advances (V1.autoScrollConversation ops share v a).1 ≤ 500)
  ∧ (∀ (ops : ViewOps View V2.Doc) share v a,
     advances (V2.autoScrollConversation ops share v a).1 ≤ 500).
Proof.
  split; intros ops share v a;
    [unfold V1.autoScrollConversation | unfold V2.autoScrollConversation];
    match goal with |- context [scrollLoop ?o ?e ?m ?d ?s ?n ?st] =>
      pose proof (proj1 (scrollLoop_advances o e m d s n st)) as H;
      destruct (scrollLoop o e m d s n st) as [st' e'] end;
    simpl in *; unfold maxScrolls in H; lia.
Qed.

(** With a fixed position and an extent that does not grow, the driver
    of either revision leaves its loop through the stuck test, or through
    the at-top test when it starts within 10 pixels of the top. *)
Lemma autoScrollConversation_stuck_exit {View} :
  (∀ (ops : ViewOps View V1.Doc) share v a,
     positionFixed ops → extentNotGrowing ops →
     (V1.autoScrollConversation ops share v a).2
     = if (getScrollTop ops v <=? 10)%Z then AtTop else Stuck)
  ∧ (∀ (ops : ViewOps View V2.Doc) share v a,
     positionFixed ops → extentNotGrowing ops →
     (V2.autoScrollConversation ops share v a).2
     = if (getScrollTop ops (setScrollTop ops (getScrollHeight ops v) v) <=? 10)%Z
       then AtTop else Stuck).
Proof.
  split; intros ops share v a Hfixed Hlevel;
    [unfold V1.autoScrollConversation | unfold V2.autoScrollConversation];
    match goal with |- context [scrollLoop ?o ?e ?m ?d ?s ?n (mkLoop ?v0 ?a0 0 0 0)] =>
      pose proof (scroll_loop_exit_when_fixed o e m d s v0 a0 Hfixed Hlevel) as H;
      destruct (scrollLoop o e m d s n (mkLoop v0 a0 0 0 0)) as [st' e'] end;
    cbn [fst snd] in *.
  - by destruct (getScrollTop ops v <=? 10)%Z; destruct H.
  - destruct Hfixed as [_ Hsleep]. rewrite !Hsleep in H.
    by destruct (getScrollTop ops _ <=? 10)%Z; destruct H.
Qed.

(** ** The handler *)

Lemma respond1_inr msgs title date timezone :
  V1.respond (inr msgs) title date timezone
  = if decide (deduplicateMessages msgs = []) then Failure noMessagesError
    else Success (V1.formatAsMarkdown (reverse (deduplicateMessages msgs))
                                      title date timezone)
                 title (length (deduplicateMessages msgs)).
Proof.
  unfold V1.respond. rewrite length_reverse.
  destruct (deduplicateMessages msgs) eqn:Hd; [done|].
  by rewrite decide_False.
Qed.

Lemma respond2_inr msgs title date timezone :
  V2.respond (inr msgs) title date timezone
  = if decide (deduplicateMessages msgs = []) then Failure noMessagesError
    else Success (V2.formatAsMarkdown (deduplicateMessages msgs)
                                      title date timezone)
                 title (length (deduplicateMessages msgs)).
Proof.
  unfold V2.respond.
  destruct (deduplicateMessages msgs) eqn:Hd; [done|].
  by rewrite decide_False.
Qed.

Lemma respond_not_empty_success scrolled title date timezone markdown t :
  V1.respond scrolled title date timezone ≠ Success markdown t 0
  ∧ V2.respond scrolled title date timezone ≠ Success markdown t 0.
Proof.
  destruct scrolled as [message|msgs]; [done|].
  rewrite respond1_inr, respond2_inr.
  destruct (deduplicateMessages msgs); [done|]. by rewrite decide_False.
Qed.

(** C1: the handler of either revision never answers with a success of
    zero messages.  When the deduplicated sequence is empty it answers with
    the failure that carries the no-messages text; otherwise it answers
    with a success whose [messageCount] is the length of the deduplicated
    sequence; an error caught on the way is a failure too.  The same holds
    for a whole request, driver included, on every view. *)
Theorem extract_never_succeeds_empty
    (scrolled : jsstring + list Message) (title date timezone : jsstring) :
  (∀ markdown t,
     V1.respond scrolled title date timezone ≠ Success markdown t 0
     ∧ V2.respond scrolled title date timezone ≠ Success markdown t 0)
  ∧ match scrolled with
    | inl message =>
        V1.respond scrolled title date timezone = Failure (extractionError message)
        ∧ V2.respond scrolled title date timezone = Failure (extractionError message)
    | inr msgs =>
        if decide (deduplicateMessages msgs = []) then
          V1.respond scrolled title date timezone = Failure noMessagesError
          ∧ V2.respond scrolled title date timezone = Failure noMessagesError
        else
          V1.respond scrolled title date timezone
          = Success (V1.formatAsMarkdown (reverse (deduplicateMessages msgs))
                                         title date timezone)
                    title (length (deduplicateMessages msgs))
          ∧ V2.respond scrolled title date timezone
            = Success (V2.formatAsMarkdown (deduplicateMessages msgs)
                                           title date timezone)
                      title (length (deduplicateMessages msgs))
          ∧ length (deduplicateMessages msgs) ≠ 0
    end
  ∧ (∀ View (ops : ViewOps View V1.Doc) share typeError v markdown t,
       V1.extractChat ops share typeError v title date timezone
       ≠ Success markdown t 0)
  ∧ (∀ View (ops : ViewOps View V2.Doc) share v markdown t,
       V2.extractChat ops share v title date timezone ≠ Success markdown t 0).
Proof.
  split; [intros; apply respond_not_empty_success|]. split.
  - destruct scrolled as [message|msgs]; [done|].
    rewrite respond1_inr, respond2_inr.
    destruct (decide (deduplicateMessages msgs = [])) as [He|Hne]; [done|].
    repeat split. by destruct (deduplicateMessages msgs).
  - split; [intros View ops share typeError v markdown t
            |intros View ops share v markdown t].
    + unfold V1.extractChat.
      destruct (V1.tryAutoScrollConversation ops share v emptyAcc)
        as [[st e]|]; apply respond_not_empty_success.
    + unfold V2.extractChat.
      destruct (V2.autoScrollConversation ops share v emptyAcc) as [st e].
      apply respond_not_empty_success.
Qed.

(** ** Role classification *)

Lemma includes_spec s t : includes s t = true ↔ occursIn t s.
Proof.
  unfold occursIn. induction s as [|c s IH]; simpl.
  - rewrite bool_decide_eq_true. split.
    + intros ->. by exists [], [].
    + intros (l1 & l2 & H). symmetry in H.
      apply app_eq_nil in H as [_ H]. by apply app_eq_nil in H as [H _].
  - rewrite orb_true_iff, bool_decide_eq_true, IH. split.
    + intros [[k Hk]|(l1 & l2 & H)]; [by exists [], k|].
      exists (c :: l1), l2. by rewrite H.
    + intros ([|d l1] & l2 & H); [left; by exists l2|].
      right. exists l1, l2. by injection H.
Qed.

Lemma determineMessageRole_user el s :
  className el = classString s →
  determineMessageRole el = Some user
  ↔ dataRole el = Some (js "user") ∨ humanClass s.
Proof.
  intros Hs. unfold determineMessageRole, humanClass. rewrite Hs.
  set (cls := toLowerCase s).
  destruct (bool_decide (dataRole el = Some (js "user"))) eqn:Hd.
  { apply bool_decide_eq_true in Hd. simpl. split; [by left | done]. }
  apply bool_decide_eq_false in Hd. simpl.
  destruct (includes cls (js "user")) eqn:H1.
  { apply includes_spec in H1. split; [|done]. intros _. right.
    exists (js "user"). split; [set_solver | done]. }
  destruct (includes cls (js "query")) eqn:H2.
  { apply includes_spec in H2. split; [|done]. intros _. right.
    exists (js "query"). split; [set_solver | done]. }
  destruct (includes cls (js "human")) eqn:H3.
  { apply includes_spec in H3. split; [|done]. intros _. right.
    exists (js "human"). split; [set_solver | done]. }
  destruct (includes cls (js "prompt")) eqn:H4.
  { apply includes_spec in H4. split; [|done]. intros _. right.
    exists (js "prompt"). split; [set_solver | done]. }
  simpl. split; [done|]. intros [?|(word & Hw & Hocc)]; [done|].
  apply includes_spec in Hocc.
  repeat (apply elem_of_cons in Hw as [->|Hw]; [congruence|]).
  by apply elem_of_nil in Hw.
Qed.

(** On a string class name the classification returns one of the two
    roles. *)
Lemma determineMessageRole_returns el s :
  className el = classString s →
  determineMessageRole el = Some user ∨ determineMessageRole el = Some assistant.
Proof.
  intros Hs. unfold determineMessageRole. rewrite Hs.
  destruct (_ || _); [by left | by right].
Qed.

(** The classification throws exactly on a class name that is not a
    string, whatever the role attribute says. *)
Lemma determineMessageRole_throws el :
  determineMessageRole el = None ↔ className el = animatedString.
Proof.
  unfold determineMessageRole. destruct (className el) as [s|]; [|done].
  by destruct (_ || _).
Qed.

(** C7: an element whose class name is a string is classified as the
    human participant exactly when its role attribute is ['user'] or its
    lower-cased class name contains one of user, query, human, prompt;
    every other such element is classified as the assistant.  An attribute
    ['user'] decides; any other attribute value leaves the decision to the
    class name. *)
Theorem role_from_attribute_or_class (el : Element) (s : jsstring) :
  className el = classString s →
  (determineMessageRole el = Some user
   ↔ dataRole el = Some (js "user") ∨ humanClass s)
  ∧ (determineMessageRole el = Some assistant
     ↔ ¬ (dataRole el = Some (js "user") ∨ humanClass s))
  ∧ (dataRole el = Some (js "user") → determineMessageRole el = Some user)
  ∧ (dataRole el ≠ Some (js "user") →
     (determineMessageRole el = Some user ↔ humanClass s)).
Proof.
  intros Hs.
  pose proof (determineMessageRole_user el s Hs) as Hu.
  pose proof (determineMessageRole_returns el s Hs) as Hr.
  split; [done|]. split; [|split].
  - rewrite <- Hu. destruct Hr as [Hr|Hr]; rewrite Hr; naive_solver.
  - intros Hd. apply Hu. by left.
  - intros Hd. rewrite Hu. naive_solver.
Qed.

Lemma role_from_attribute_or_class_witness :
  let el := mkElement (classString (js "model-response-text"))
                      (Some (js "model")) None (js "Hello") in
  className el = classString (js "model-response-text")
  ∧ determineMessageRole el = Some assistant.
Proof.
  intros el. split; [reflexivity|].
  apply (role_from_attribute_or_class el (js "model-response-text") eq_refl).
  intros [H|(word & Hw & Hocc)]; [discriminate H|].
  apply includes_spec in Hocc.
  repeat (apply elem_of_cons in Hw as [->|Hw]; [discriminate Hocc|]).
  by apply elem_of_nil in Hw.
Defined.

(** C7, as first stated, fails: the attribute says ['model'], the class
    name contains [user], and the element is classified as the human. *)
Lemma model_attribute_loses_to_class_name :
  let el := mkElement (classString (js "response-container user-row"))
                      (Some (js "model")) None (js "Hello") in
  dataRole el = Some (js "model") ∧ determineMessageRole el = Some user.
Proof. split; reflexivity. Qed.

(** ** Rendering *)

Lemma notLast_suffix (msgs rest : list Message) k :
  length msgs = k + S (length rest) →
  notLast k msgs = match rest with [] => false | _ => true end.
Proof.
  intros Hlen. unfold notLast. rewrite Hlen.
  destruct rest; simpl length; [apply Z.ltb_ge | apply Z.ltb_lt]; lia.
Qed.

(** The indexed loop over the messages writes the blocks with the rule
    between consecutive ones. *)
Lemma forEachIndexed_join (body : Message → jsstring)
    (block : nat → Message → jsstring) (msgs : list Message) markdown :
  (∀ index msg, block index msg
                = body msg ++ if notLast index msgs then rule else []) →
  forEachIndexed block msgs markdown
  = markdown ++ joinWith rule (body <$> msgs).
Proof.
  intros Hblock. unfold forEachIndexed.
  assert (∀ rest k md, length msgs = k + length rest →
            foldl (λ md im, md ++ block im.1 im.2) md
                  (zip (seq k (length rest)) rest)
            = md ++ joinWith rule (body <$> rest)) as Hgen.
  { induction rest as [|m rest IH]; intros k md Hlen; simpl.
    - by rewrite app_nil_r.
    - rewrite (IH (S k)) by (simpl in Hlen; lia).
      rewrite Hblock, (notLast_suffix msgs rest k) by (simpl in Hlen; lia).
      destruct rest as [|m' rest]; simpl.
      + by rewrite !app_nil_r.
      + by rewrite <- !app_assoc. }
  by apply (Hgen msgs 0 markdown).
Qed.

Lemma countRole_total msgs :
  countRole user msgs + countRole assistant msgs = length msgs.
Proof.
  unfold countRole. induction msgs as [|m msgs IH]; [done|].
  rewrite !filter_cons. destruct m as [[] c t]; simpl;
    repeat case_decide; simpl; try done; lia.
Qed.

(** A block of revision 2 is the stamped block of a message without a
    timestamp. *)
Lemma plainBlock2_stamped msg :
  timestamp msg = None → plainBlock2 msg = stampedBlock V2.bust V2.robot msg.
Proof. intros Ht. unfold plainBlock2, stampedBlock. by rewrite Ht. Qed.

(** On a timestamp that is not the empty string, the truth test of
    revision 1 and the presence of a timestamp agree. *)
Lemma stampedBlock1_stamped msg :
  timestamp msg ≠ Some [] → stampedBlock1 msg = stampedBlock V1.bust V1.robot msg.
Proof.
  intros Ht. unfold stampedBlock1, stampedBlock.
  by destruct (timestamp msg) as [[|c t]|].
Qed.

Lemma formatAsMarkdown1_join msgs title date timezone :
  V1.formatAsMarkdown msgs title date timezone
  = titleLine title ++ provenanceLine date timezone
    ++ summaryLine V1.bust V1.robot msgs ++ rule
    ++ joinWith rule (stampedBlock1 <$> msgs).
Proof.
  unfold V1.formatAsMarkdown.
  rewrite (forEachIndexed_join stampedBlock1).
  - unfold titleLine, provenanceLine, summaryLine.
    by rewrite <- !app_assoc.
  - intros index msg. unfold V1.block, stampedBlock1, roleHeader.
    destruct (role msg), (timestamp msg) as [[|c t]|];
      cbv beta iota delta [truthy timestampSuffix]; by rewrite <- ?app_assoc.
Qed.

Lemma formatAsMarkdown2_join (body : Message → jsstring) msgs title date timezone :
  (∀ msg, msg ∈ msgs → body msg = plainBlock2 msg) →
  V2.formatAsMarkdown msgs title date timezone
  = titleLine title ++ provenanceLine date timezone
    ++ summaryLine V2.bust V2.robot msgs ++ rule
    ++ joinWith rule (body <$> msgs).
Proof.
  intros Hbody. unfold V2.formatAsMarkdown.
  assert (body <$> msgs = plainBlock2 <$> msgs) as ->.
  { apply list_fmap_ext. intros i msg Hi. apply Hbody.
    by eapply list_elem_of_lookup_2. }
  rewrite (forEachIndexed_join plainBlock2).
  - unfold titleLine, provenanceLine, summaryLine.
    by rewrite <- !app_assoc.
  - intros index msg. unfold V2.block, plainBlock2, roleHeader.
    destruct (role msg); by rewrite <- ?app_assoc.
Qed.



(** ** Timestamp formatting *)

(** A value with an integer prefix [num] whose instant is a valid time is
    rendered from that instant: seconds unless [num] exceeds
    [9999999999]. *)
Lemma formatTimestamp_integer_prefix toLocaleString dateParse value num :
  parseInt10 value = Some num →
  validTime (if (num >? 9999999999)%Z then num else num * 1000)%Z = true →
  formatTimestamp toLocaleString dateParse value
  = toLocaleString (if (num >? 9999999999)%Z then num else num * 1000)%Z.
Proof. intros Hp Hv. unfold formatTimestamp. by rewrite Hp, Hv. Qed.

(** A value with no integer prefix goes through the date-string parse,
    and is returned as it is when that fails. *)
Lemma formatTimestamp_no_integer toLocaleString dateParse value :
  parseInt10 value = None →
  formatTimestamp toLocaleString dateParse value
  = match dateParse value with
    | Some t => toLocaleString t
    | None => value
    end.
Proof. intros Hp. unfold formatTimestamp. by rewrite Hp. Qed.

Example formatTimestamp_seconds toLocaleString dateParse :
  formatTimestamp toLocaleString dateParse (js "1700000000")
  = toLocaleString 1700000000000%Z.
Proof. reflexivity. Qed.

Example formatTimestamp_milliseconds toLocaleString dateParse :
  formatTimestamp toLocaleString dateParse (js "1700000000000")
  = toLocaleString 1700000000000%Z.
Proof. reflexivity. Qed.

Example formatTimestamp_month_name toLocaleString dateParse :
  formatTimestamp toLocaleString dateParse (js "Jan 15, 2024")
  = match dateParse (js "Jan 15, 2024") with
    | Some t => toLocaleString t
    | None => js "Jan 15, 2024"
    end.
Proof. reflexivity. Qed.

(** C6: on the ISO date string ["2024-01-15T10:30:00Z"], [parseInt] reads
    the year as the number 2024, and [formatTimestamp] renders the instant
    2024 seconds after the epoch, whatever the date-string parse would
    give. *)
Theorem formatTimestamp_iso_string_read_as_seconds
    (toLocaleString : Z → jsstring) (dateParse : jsstring → option Z) :
  parseInt10 (js "2024-01-15T10:30:00Z") = Some 2024%Z
  ∧ formatTimestamp toLocaleString dateParse (js "2024-01-15T10:30:00Z")
    = toLocaleString 2024000%Z.
Proof. split; reflexivity. Qed.

(** ** Extraction passes and deduplication *)

Lemma Acc_eq a b :
  messages a = messages b → seenContent a = seenContent b → a = b.
Proof. destruct a, b; simpl; by intros -> ->. Qed.

Lemma absorb_nil a : absorb a [] = a.
Proof.
  apply Acc_eq; simpl; [by rewrite app_nil_r | set_solver].
Qed.

Lemma absorb_app a l1 l2 : absorb (absorb a l1) l2 = absorb a (l1 ++ l2).
Proof.
  apply Acc_eq; simpl.
  - by rewrite dedupe_from_app, app_assoc.
  - rewrite fmap_app. set_solver.
Qed.

(** One guarded push is the absorption of one message. *)
Lemma absorb_one a msg :
  absorb a [msg]
  = if bool_decide (fingerprint msg ∉ seenContent a)
    then mkAcc (messages a ++ [msg]) ({[fingerprint msg]} ∪ seenContent a)
    else a.
Proof.
  destruct (decide (fingerprint msg ∈ seenContent a)) as [Hin|Hnew].
  - rewrite bool_decide_eq_false_2 by (intros H; by apply H).
    apply Acc_eq; simpl; [|set_solver].
    by rewrite decide_True, app_nil_r.
  - rewrite bool_decide_eq_true_2 by done.
    apply Acc_eq; simpl; [|set_solver]. by rewrite decide_False.
Qed.

Lemma pushFromTurn_absorb r el turnTs a :
  V1.pushFromTurn r el turnTs a = absorb a (turnCandidate r turnTs el).
Proof.
  unfold V1.pushFromTurn, turnCandidate.
  destruct (truthy (extractMessageContent el)); simpl; [|by rewrite absorb_nil].
  by rewrite absorb_one, fingerprint_pushed.
Qed.

Lemma pushFromMain_absorb r a el :
  V1.pushFromMain r a el = absorb a (mainCandidate r el).
Proof.
  unfold V1.pushFromMain, mainCandidate.
  destruct (truthy (extractMessageContent el) && truthy _); simpl;
    [|by rewrite absorb_nil].
  by rewrite absorb_one, fingerprint_pushed.
Qed.

(** What [extractFromMainContent] leaves, also when it is cut short. *)
Lemma extractFromMainContent_absorb els a :
  (V1.extractFromMainContent els a).1 = absorb a (mainCandidates els).
Proof.
  revert a. induction els as [|el els IH]; intros a; simpl.
  - by rewrite absorb_nil.
  - destruct (determineMessageRole el) as [r|]; simpl.
    + by rewrite IH, pushFromMain_absorb, absorb_app.
    + by rewrite absorb_nil.
Qed.

(** [extractFromMainContent] throws exactly when one of the candidates
    has a class name that is not a string. *)
Lemma extractFromMainContent_completion els a :
  (V1.extractFromMainContent els a).2
  = if existsb (λ el, bool_decide (className el = animatedString)) els
    then Thrown else Returned.
Proof.
  revert a. induction els as [|el els IH]; intros a; simpl; [done|].
  destruct (determineMessageRole el) as [r|] eqn:Hr.
  - rewrite IH, bool_decide_eq_false_2; [done|].
    intros Hc%determineMessageRole_throws. congruence.
  - apply determineMessageRole_throws in Hr.
    by rewrite bool_decide_eq_true_2.
Qed.

Lemma extractFromTurn_absorb turn a :
  V1.extractFromTurn turn a = absorb a (turnCandidates turn).
Proof.
  unfold V1.extractFromTurn, turnCandidates.
  destruct (V1.userEl turn), (V1.modelEl turn);
    rewrite ?pushFromTurn_absorb, ?absorb_app, ?app_nil_r, ?absorb_nil; done.
Qed.

Lemma foldl_absorb {A} (step : Acc → A → Acc) (found : A → list Message) l a :
  (∀ a x, step a x = absorb a (found x)) →
  foldl step a l = absorb a (l ≫= found).
Proof.
  intros Hstep. revert a. induction l as [|x l IH]; intros a; simpl.
  - by rewrite absorb_nil.
  - by rewrite IH, Hstep, absorb_app.
Qed.

Lemma extractVisibleMessages1_absorb doc a :
  V1.extractVisibleMessages doc a = absorb a (candidates1 doc).
Proof.
  unfold V1.extractVisibleMessages, V1.tryExtractVisibleMessages, candidates1.
  destruct (V1.turnContainers doc) as [|t ts].
  - destruct (V1.mainContent doc); [|by rewrite absorb_nil].
    apply extractFromMainContent_absorb.
  - apply (foldl_absorb (λ a' turn, V1.extractFromTurn turn a')).
    intros; apply extractFromTurn_absorb.
Qed.

(** A pass of revision 1 throws exactly on a document with an SVG
    candidate, whatever has been accumulated. *)
Lemma tryExtractVisibleMessages_eq doc a :
  V1.tryExtractVisibleMessages doc a
  = (V1.extractVisibleMessages doc a,
     if svgCandidate doc then Thrown else Returned).
Proof.
  rewrite (surjective_pairing (V1.tryExtractVisibleMessages doc a)).
  f_equal. unfold V1.tryExtractVisibleMessages, svgCandidate.
  destruct (V1.turnContainers doc) as [|t ts]; [|done].
  destruct (V1.mainContent doc); [|done].
  apply extractFromMainContent_completion.
Qed.

Lemma collect_absorb seen newMessages el :
  V2.collect (seen, newMessages) el
  = (seen ∪ list_to_set (fingerprint <$> located2Candidate el),
     newMessages ++ dedupe_from seen (located2Candidate el)).
Proof.
  unfold V2.collect, located2Candidate.
  set (r := match V2.tagName el with V2.USER_QUERY => user | _ => assistant end).
  destruct (truthy _ && truthy _); cbn [andb].
  - pose proof (fingerprint_pushed r (V2.contentEl el) None) as Hfp.
    cbn [dedupe_from]. rewrite fmap_cons, Hfp.
    destruct (decide (hashContent (extractMessageContent (V2.contentEl el))
                      ∈ seen)) as [Hin|Hnew].
    + rewrite bool_decide_eq_false_2 by (intros H; by apply H).
      f_equal; [set_solver | by rewrite app_nil_r].
    + rewrite bool_decide_eq_true_2 by done. f_equal. set_solver.
  - f_equal; [set_solver | by rewrite app_nil_r].
Qed.

Lemma foldl_collect_absorb doc seen newMessages :
  foldl V2.collect (seen, newMessages) doc
  = (seen ∪ list_to_set (fingerprint <$> candidates2 doc),
     newMessages ++ dedupe_from seen (candidates2 doc)).
Proof.
  revert seen newMessages. unfold candidates2.
  induction doc as [|el doc IH]; intros seen newMessages.
  - simpl. f_equal; [set_solver | by rewrite app_nil_r].
  - change (foldl V2.collect (seen, newMessages) (el :: doc))
      with (foldl V2.collect (V2.collect (seen, newMessages) el) doc).
    rewrite collect_absorb, IH, bind_cons, dedupe_from_app, fmap_app.
    f_equal; [set_solver | by rewrite app_assoc].
Qed.

Lemma extractVisibleMessages2_absorb doc prepend a :
  V2.extractVisibleMessages doc prepend a
  = let b := absorb a (candidates2 doc) in
    if prepend
    then mkAcc (drop (length (messages a)) (messages b) ++ messages a)
               (seenContent b)
    else b.
Proof.
  unfold V2.extractVisibleMessages. rewrite foldl_collect_absorb. simpl.
  rewrite drop_app_length.
  destruct prepend; simpl; [|done].
  destruct (dedupe_from (seenContent a) (candidates2 doc)) eqn:Hd; simpl; [|done].
  by rewrite app_nil_r.
Qed.

Lemma dedupe_from_fingerprints seen found :
  list_to_set (fingerprint <$> dedupe_from seen found)
  = (list_to_set (fingerprint <$> found) ∖ seen : gset jsstring).
Proof.
  revert seen. induction found as [|m found IH]; intros seen.
  - simpl. set_solver.
  - cbn [dedupe_from]. rewrite fmap_cons, list_to_set_cons.
    destruct (decide (fingerprint m ∈ seen)) as [Hin|Hnew].
    + rewrite IH. set_solver.
    + rewrite fmap_cons, list_to_set_cons, IH. apply set_eq. intros h.
      rewrite !elem_of_union, !elem_of_difference, !elem_of_union,
        !elem_of_singleton.
      destruct (decide (h = fingerprint m)) as [->|]; naive_solver.
Qed.

Lemma dedupe_from_seen_all seen found :
  (∀ m, m ∈ found → fingerprint m ∈ seen) → dedupe_from seen found = [].
Proof.
  induction found as [|m found IH]; intros Hall; [done|].
  cbn [dedupe_from]. rewrite decide_True by (apply Hall; by left).
  apply IH. intros m' Hm'. apply Hall. by right.
Qed.

Lemma AccExact_empty : AccExact emptyAcc.
Proof. split; [constructor | done]. Qed.

Lemma AccExact_absorb a found : AccExact a → AccExact (absorb a found).
Proof.
  intros [Hnd Hseen]. split; simpl.
  - rewrite fmap_app. apply NoDup_app. split; [done|].
    split; [|apply dedupe_from_NoDup].
    intros h Hh (m & -> & Hm)%list_elem_of_fmap.
    apply dedupe_from_elem in Hm as [_ Hm]. apply Hm. rewrite Hseen.
    by apply elem_of_list_to_set.
  - rewrite fmap_app, list_to_set_app_L, dedupe_from_fingerprints, <- Hseen.
    apply set_eq. intros h.
    rewrite !elem_of_union, elem_of_difference.
    destruct (decide (h ∈ seenContent a)); naive_solver.
Qed.

Lemma AccExact_swap l1 l2 seen :
  AccExact (mkAcc (l1 ++ l2) seen) → AccExact (mkAcc (l2 ++ l1) seen).
Proof.
  intros [Hnd Hseen]. split; simpl in *.
  - rewrite fmap_app in *. apply NoDup_app in Hnd as (H1 & H12 & H2).
    apply NoDup_app. split; [done|]. split; [|done].
    intros h Hh2 Hh1. by eapply H12.
  - rewrite Hseen, !fmap_app, !list_to_set_app_L. set_solver.
Qed.

Lemma AccExact_extractVisibleMessages2 doc prepend a :
  AccExact a → AccExact (V2.extractVisibleMessages doc prepend a).
Proof.
  intros Ha. rewrite extractVisibleMessages2_absorb.
  pose proof (AccExact_absorb a (candidates2 doc) Ha) as Hb.
  destruct prepend; [|done]. simpl in *. rewrite drop_app_length.
  by apply AccExact_swap.
Qed.

Lemma reachable_AccExact a : reachable1 a ∨ reachable2 a → AccExact a.
Proof.
  intros [H|H]; induction H;
    rewrite ?pushFromTurn_absorb, ?pushFromMain_absorb;
    auto using AccExact_empty, AccExact_absorb, AccExact_extractVisibleMessages2.
Qed.

Lemma absorb_is_dedupe a found :
  AccExact a →
  messages (absorb a found) = deduplicateMessages (messages a ++ found).
Proof.
  intros [Hnd Hseen]. rewrite deduplicateMessages_eq, dedupe_from_app. simpl.
  rewrite (dedupe_from_id ∅ (messages a) Hnd)
    by (intros m _; apply not_elem_of_empty).
  do 2 f_equal. rewrite Hseen. apply set_eq. intros h. set_solver.
Qed.

Lemma absorb_twice a found : absorb (absorb a found) found = absorb a found.
Proof.
  apply Acc_eq; simpl; [|set_solver].
  rewrite (dedupe_from_seen_all (seenContent a ∪ _) found), app_nil_r; [done|].
  intros m Hm. apply elem_of_union_r, elem_of_list_to_set.
  by apply list_elem_of_fmap_2.
Qed.

(** X1: on an accumulator whose messages have pairwise distinct
    fingerprints and whose seen-set is exactly the set of these
    fingerprints, a pass leaves the messages that deduplicating "what was
    accumulated, then what the pass visits in the document" gives: appended
    in revision 1 and in revision 2 without [prepend], the new ones moved
    to the front with [prepend].  In revision 1 a pass visits the
    candidates up to the first one on which the classification throws. *)
Theorem pass_is_dedupe_of_all_observed
    (a : Acc) (doc1 : V1.Doc) (doc2 : V2.Doc) :
  AccExact a →
  messages (V1.extractVisibleMessages doc1 a)
  = deduplicateMessages (messages a ++ candidates1 doc1)
  ∧ messages (V2.extractVisibleMessages doc2 false a)
    = deduplicateMessages (messages a ++ candidates2 doc2)
  ∧ messages (V2.extractVisibleMessages doc2 true a)
    = drop (length (messages a))
           (deduplicateMessages (messages a ++ candidates2 doc2))
      ++ messages a.
Proof.
  intros Ha.
  rewrite extractVisibleMessages1_absorb, !extractVisibleMessages2_absorb.
  cbn zeta iota. rewrite !absorb_is_dedupe by done. done.
Qed.

Lemma pass_is_dedupe_of_all_observed_witness :
  let question := mkElement (classString []) None None (js " What is Rocq? ") in
  let answer := mkElement (classString []) None None (js "A proof assistant.") in
  let doc2 := [V2.mkLocated V2.USER_QUERY question;
               V2.mkLocated V2.MODEL_RESPONSE answer;
               V2.mkLocated V2.USER_QUERY question] in
  let doc1 := V1.mkDoc [V1.mkTurn None (Some question) (Some answer)] None in
  AccExact emptyAcc
  ∧ messages (V1.extractVisibleMessages doc1 emptyAcc)
    = deduplicateMessages (messages emptyAcc ++ candidates1 doc1)
  ∧ messages (V2.extractVisibleMessages doc2 false emptyAcc)
    = deduplicateMessages (messages emptyAcc ++ candidates2 doc2)
  ∧ messages (V2.extractVisibleMessages doc2 true emptyAcc)
    = drop (length (messages emptyAcc))
           (deduplicateMessages (messages emptyAcc ++ candidates2 doc2))
      ++ messages emptyAcc.
Proof.
  intros question answer doc2 doc1. split; [exact AccExact_empty|].
  exact (pass_is_dedupe_of_all_observed emptyAcc doc1 doc2 AccExact_empty).
Defined.

(** X2: in every accumulator either revision can go through, the seen-set
    is exactly the set of fingerprints of the accumulated messages: no
    fingerprint is recorded without its message. *)
Theorem seen_set_is_accumulated_fingerprints (a : Acc) :
  reachable1 a ∨ reachable2 a →
  seenContent a = list_to_set (fingerprint <$> messages a).
Proof. intros H. by destruct (reachable_AccExact a H). Qed.

Lemma seen_set_is_accumulated_fingerprints_witness :
  let doc := V1.mkDoc [] (Some [mkElement (classString (js "user-query")) None None (js "Hi");
                                mkElement (classString (js "response")) None None (js "Hi")]) in
  let a := V1.extractVisibleMessages doc emptyAcc in
  (reachable1 a ∨ reachable2 a)
  ∧ seenContent a = list_to_set (fingerprint <$> messages a).
Proof.
  intros doc a.
  assert (H : reachable1 a ∨ reachable2 a)
    by (left; apply reachable1_extractVisibleMessages, reach1_init).
  exact (conj H (seen_set_is_accumulated_fingerprints a H)).
Defined.

Lemma extraction_pass_idempotent_aux
    (a : Acc) (doc1 : V1.Doc) (doc2 : V2.Doc) (prepend again : bool) :
  V1.extractVisibleMessages doc1 (V1.extractVisibleMessages doc1 a)
  = V1.extractVisibleMessages doc1 a
  ∧ V2.extractVisibleMessages doc2 again
      (V2.extractVisibleMessages doc2 prepend a)
    = V2.extractVisibleMessages doc2 prepend a.
Proof.
  split.
  - rewrite !extractVisibleMessages1_absorb. apply absorb_twice.
  - rewrite (extractVisibleMessages2_absorb doc2 again).
    set (b := V2.extractVisibleMessages doc2 prepend a).
    assert (absorb b (candidates2 doc2) = b) as ->.
    { unfold b. rewrite extractVisibleMessages2_absorb. cbn zeta.
      assert (∀ l, absorb (mkAcc l (seenContent (absorb a (candidates2 doc2))))
                          (candidates2 doc2)
                   = mkAcc l (seenContent (absorb a (candidates2 doc2)))) as Hl.
      { intros l. apply Acc_eq; simpl; [|set_solver].
        rewrite (dedupe_from_seen_all (seenContent a ∪ _)), app_nil_r; [done|].
        intros m Hm. apply elem_of_union_r, elem_of_list_to_set.
        by apply list_elem_of_fmap_2. }
      destruct prepend; [apply Hl|]. apply absorb_twice. }
    cbn zeta. destruct again; [|done].
    apply Acc_eq; simpl; [|done]. by rewrite drop_all.
Qed.

(** X3: an extraction pass is idempotent: running it again on the same
    document, with either [prepend] flag, changes neither the messages nor
    the seen-set. *)
Theorem extraction_pass_idempotent
    (a : Acc) (doc1 : V1.Doc) (doc2 : V2.Doc) (prepend again : bool) :
  V1.extractVisibleMessages doc1 (V1.extractVisibleMessages doc1 a)
  = V1.extractVisibleMessages doc1 a
  ∧ V2.extractVisibleMessages doc2 again
      (V2.extractVisibleMessages doc2 prepend a)
    = V2.extractVisibleMessages doc2 prepend a.
Proof. apply extraction_pass_idempotent_aux. Qed.

(** ** The drivers and what they accumulate *)

Section LoopOnView.
Context {View Doc : Type} (ops : ViewOps View Doc).
Variable extractPass : Doc → Acc → Acc.
Variables (adaptiveMax : nat) (adaptiveDelay scrollStep : Z).
Variable P : Acc → Prop.
Hypothesis P_pass : ∀ v a, P a → P (extractPass (document ops v) a).

Lemma adaptiveWait_keeps budget v a h :
  P a → P (adaptiveWait ops extractPass adaptiveDelay budget v a h).1.2.
Proof.
  revert v a h. induction budget as [|b IH]; intros v a h Ha; simpl; [done|].
  destruct (_ && _); simpl; [by apply P_pass|]. by apply IH, P_pass.
Qed.

Lemma iteration_keeps st :
  P (acc st) →
  P (acc (iteration ops extractPass adaptiveMax adaptiveDelay scrollStep st).1).
Proof.
  intros Ha. unfold iteration.
  pose proof (adaptiveWait_keeps adaptiveMax
    (sleep ops 50 (scrollBy ops (- scrollStep) (view st)))
    (extractPass (document ops (sleep ops 50 (scrollBy ops (- scrollStep) (view st))))
                 (acc st))
    (getScrollHeight ops (sleep ops 50 (scrollBy ops (- scrollStep) (view st))))
    (P_pass _ _ Ha)) as Hw.
  destruct (adaptiveWait _ _ _ _ _ _ _) as [[v2 a2] h2]. simpl in Hw.
  repeat (destruct (_ : bool); simpl; try done).
Qed.

Lemma scrollLoop_keeps remaining st :
  P (acc st) →
  P (acc (scrollLoop ops extractPass adaptiveMax adaptiveDelay scrollStep
                     remaining st).1).
Proof.
  revert st. induction remaining as [|n IH]; intros st Ha; simpl; [done|].
  pose proof (iteration_keeps st Ha) as Hi.
  destruct (iteration _ _ _ _ _ st) as [st' [e|]]; simpl in *; [done|].
  by apply IH.
Qed.
End LoopOnView.

(** Whatever holds of the accumulator and is kept by every pass on a
    document the view can show holds of what the driver returns. *)
Lemma autoScrollConversation1_keeps {View} (ops : ViewOps View V1.Doc)
    share v a (P : Acc → Prop) :
  (∀ v' a', P a' → P (V1.extractVisibleMessages (document ops v') a')) →
  P a → P (acc (V1.autoScrollConversation ops share v a).1).
Proof.
  intros Hpass Ha. unfold V1.autoScrollConversation.
  match goal with |- context [scrollLoop ?o ?e ?m ?d ?s ?n ?st] =>
    pose proof (scrollLoop_keeps o e m d s P Hpass n st) as H;
    destruct (scrollLoop o e m d s n st) as [st' e'] end.
  simpl in *. auto.
Qed.

Lemma autoScrollConversation2_keeps {View} (ops : ViewOps View V2.Doc)
    share v a (P : Acc → Prop) :
  (∀ v' p a', P a' → P (V2.extractVisibleMessages (document ops v') p a')) →
  P a → P (acc (V2.autoScrollConversation ops share v a).1).
Proof.
  intros Hpass Ha. unfold V2.autoScrollConversation.
  match goal with |- context [scrollLoop ?o ?e ?m ?d ?s ?n ?st] =>
    pose proof (scrollLoop_keeps o e m d s P (λ v' a', Hpass v' true a') n st) as H;
    destruct (scrollLoop o e m d s n st) as [st' e'] end.
  simpl in *. auto 10.
Qed.

Lemma pass_keeps_messages a :
  (∀ doc, messages a `prefix_of` messages (V1.extractVisibleMessages doc a))
  ∧ (∀ doc prepend,
       messages a `sublist_of` messages (V2.extractVisibleMessages doc prepend a))
  ∧ (∀ doc, seenContent a ⊆ seenContent (V1.extractVisibleMessages doc a))
  ∧ (∀ doc prepend,
       seenContent a ⊆ seenContent (V2.extractVisibleMessages doc prepend a)).
Proof.
  split; [|split; [|split]].
  - intros doc. rewrite extractVisibleMessages1_absorb. by eexists.
  - intros doc prepend. rewrite extractVisibleMessages2_absorb.
    destruct prepend; simpl.
    + by apply sublist_inserts_l.
    + by apply sublist_inserts_r.
  - intros doc. rewrite extractVisibleMessages1_absorb. set_solver.
  - intros doc prepend. rewrite extractVisibleMessages2_absorb.
    destruct prepend; set_solver.
Qed.

(** X4: nothing accumulated is ever dropped or reordered.  A pass of
    revision 1 only appends, a pass of revision 2 only appends or prepends,
    the seen-set only grows, and the messages a driver is entered with are
    a subsequence of the messages it returns. *)
Theorem accumulated_messages_are_kept {View} (a : Acc)
    (ops1 : ViewOps View V1.Doc) (ops2 : ViewOps View V2.Doc)
    (share : Z → Z) (v : View) (doc1 : V1.Doc) (doc2 : V2.Doc) (prepend : bool) :
  messages a `prefix_of` messages (V1.extractVisibleMessages doc1 a)
  ∧ (if prepend
     then messages a `suffix_of` messages (V2.extractVisibleMessages doc2 true a)
     else messages a `prefix_of` messages (V2.extractVisibleMessages doc2 false a))
  ∧ seenContent a ⊆ seenContent (V1.extractVisibleMessages doc1 a)
  ∧ seenContent a ⊆ seenContent (V2.extractVisibleMessages doc2 prepend a)
  ∧ messages a
      `sublist_of` messages (acc (V1.autoScrollConversation ops1 share v a).1)
  ∧ messages a
      `sublist_of` messages (acc (V2.autoScrollConversation ops2 share v a).1).
Proof.
  destruct (pass_keeps_messages a) as (H1 & H2 & H3 & H4).
  split; [done|]. split.
  { rewrite !extractVisibleMessages2_absorb. destruct prepend; by eexists. }
  split; [done|]. split; [done|]. split.
  - apply (autoScrollConversation1_keeps ops1 share v a
             (λ a', messages a `sublist_of` messages a')); [|done].
    intros v' a' Ha'. etrans; [exact Ha'|].
    destruct (proj1 (pass_keeps_messages a') (document ops1 v')) as [k ->].
    by apply sublist_inserts_r.
  - apply (autoScrollConversation2_keeps ops2 share v a
             (λ a', messages a `sublist_of` messages a')); [|done].
    intros v' p a' Ha'. etrans; [exact Ha'|]. apply (pass_keeps_messages a').
Qed.

Lemma absorb_Forall (Q : Message → Prop) a found :
  Forall Q (messages a) → Forall Q found → Forall Q (messages (absorb a found)).
Proof.
  intros Ha Hf. simpl. apply Forall_app. split; [done|].
  apply Forall_forall. intros m [Hm _]%dedupe_from_elem.
  by eapply Forall_forall in Hf.
Qed.

Lemma extractVisibleMessages2_Forall (Q : Message → Prop) doc prepend a :
  Forall Q (messages a) → Forall Q (candidates2 doc) →
  Forall Q (messages (V2.extractVisibleMessages doc prepend a)).
Proof.
  intros Ha Hf. pose proof (absorb_Forall Q a (candidates2 doc) Ha Hf) as Hb.
  rewrite extractVisibleMessages2_absorb. destruct prepend; [|done].
  simpl in *. rewrite drop_app_length. apply Forall_app in Hb as [? ?].
  by apply Forall_app.
Qed.

(** A content the scripts push: not empty, and trimmed. *)
Lemma pushed_content_clean el :
  truthy (extractMessageContent el) = true →
  trim (extractMessageContent el) ≠ []
  ∧ trim (trim (extractMessageContent el)) = trim (extractMessageContent el).
Proof.
  intros Ht. split; [|apply trim_idempotent].
  unfold extractMessageContent in *. rewrite trim_idempotent.
  by destruct (trim (markdown el)).
Qed.

Lemma turnCandidate_clean r ts el :
  Forall (λ m, content m ≠ [] ∧ trim (content m) = content m)
         (turnCandidate r ts el).
Proof.
  unfold turnCandidate. destruct (truthy _) eqn:Ht; [|constructor].
  repeat constructor; simpl; by apply pushed_content_clean.
Qed.

Lemma mainCandidate_clean r el :
  Forall (λ m, content m ≠ [] ∧ trim (content m) = content m)
         (mainCandidate r el).
Proof.
  unfold mainCandidate. destruct (truthy (extractMessageContent el)) eqn:Ht;
    [|constructor]. destruct (truthy (trim _)); [|constructor].
  repeat constructor; simpl; by apply pushed_content_clean.
Qed.

Lemma candidates2_clean doc :
  Forall (λ m, (content m ≠ [] ∧ trim (content m) = content m)
               ∧ timestamp m = None) (candidates2 doc).
Proof.
  unfold candidates2. induction doc as [|el doc IH]; [constructor|].
  rewrite bind_cons. apply Forall_app. split; [|done].
  unfold located2Candidate.
  destruct (truthy (extractMessageContent _)) eqn:Ht; [|constructor].
  destruct (truthy (trim _)); [|constructor].
  repeat constructor; simpl; by apply pushed_content_clean.
Qed.

(** X5: every message either revision accumulates has a content that is
    not empty and is its own [trim]. *)
Theorem accumulated_content_is_nonempty_and_trimmed (a : Acc) (m : Message) :
  reachable1 a ∨ reachable2 a → m ∈ messages a →
  content m ≠ [] ∧ trim (content m) = content m.
Proof.
  intros Ha. revert m. apply Forall_forall. destruct Ha as [H|H]; induction H.
  - constructor.
  - rewrite pushFromTurn_absorb. by apply absorb_Forall, turnCandidate_clean.
  - rewrite pushFromMain_absorb. by apply absorb_Forall, mainCandidate_clean.
  - constructor.
  - apply extractVisibleMessages2_Forall; [done|].
    eapply Forall_impl; [apply candidates2_clean|]. by intros ? [? _].
Qed.

Lemma accumulated_content_is_nonempty_and_trimmed_witness :
  let el := mkElement (classString []) None None (js "  Hello there  ") in
  let a := V1.pushFromTurn user el None emptyAcc in
  let m := mkMessage user (js "Hello there") None in
  (reachable1 a ∨ reachable2 a) ∧ m ∈ messages a
  ∧ content m ≠ [] ∧ trim (content m) = content m.
Proof.
  intros el a m.
  assert (H : reachable1 a ∨ reachable2 a)
    by (left; apply reach1_turn, reach1_init).
  assert (Hm : m ∈ messages a) by (vm_compute; left).
  exact (conj H (conj Hm
           (accumulated_content_is_nonempty_and_trimmed a m H Hm))).
Defined.

(** X6: revision 2 never records a timestamp, so on the messages it can
    accumulate its renderer, which has no timestamp branch, produces the
    layout whose headers carry the timestamp whenever there is one. *)
Theorem revision2_has_no_timestamps (a : Acc) (title date timezone : jsstring) :
  reachable2 a →
  Forall (λ m, timestamp m = None) (messages a)
  ∧ V2.formatAsMarkdown (messages a) title date timezone
    = titleLine title ++ provenanceLine date timezone
      ++ summaryLine V2.bust V2.robot (messages a) ++ rule
      ++ joinWith rule (stampedBlock V2.bust V2.robot <$> messages a).
Proof.
  intros H.
  assert (Forall (λ m, timestamp m = None) (messages a)) as Hts.
  { induction H; [constructor|].
    apply extractVisibleMessages2_Forall; [done|].
    eapply Forall_impl; [apply candidates2_clean|]. by intros ? [_ ?]. }
  split; [done|]. apply formatAsMarkdown2_join.
  intros msg Hmsg. eapply Forall_forall in Hts; [|done].
  unfold stampedBlock, plainBlock2. by rewrite Hts.
Qed.

Lemma revision2_has_no_timestamps_witness :
  let doc := [V2.mkLocated V2.USER_QUERY
                (mkElement (classString []) None (Some (js "10:30")) (js "Hi"))] in
  let a := V2.extractVisibleMessages doc false emptyAcc in
  reachable2 a
  ∧ Forall (λ m, timestamp m = None) (messages a)
  ∧ V2.formatAsMarkdown (messages a) (js "T") (js "D") (js "UTC")
    = titleLine (js "T") ++ provenanceLine (js "D") (js "UTC")
      ++ summaryLine V2.bust V2.robot (messages a) ++ rule
      ++ joinWith rule (stampedBlock V2.bust V2.robot <$> messages a).
Proof.
  intros doc a.
  assert (H : reachable2 a) by apply reach2_pass, reach2_init.
  exact (conj H (revision2_has_no_timestamps a (js "T") (js "D") (js "UTC") H)).
Defined.

(** ** The driver when a pass can throw *)

Section TryLoop.
Context {View Doc : Type} (ops : ViewOps View Doc).
Variable tryPass : Doc → Acc → Acc * Completion.
Variables (adaptiveMax : nat) (adaptiveDelay scrollStep : Z).

Local Abbreviation pass := (λ doc a, (tryPass doc a).1).

(** A loop that is not left by a throw went the way of the loop that
    takes from every pass what it leaves. *)
Lemma tryAdaptiveWait_Some budget v a h r :
  tryAdaptiveWait ops tryPass adaptiveDelay budget v a h = Some r →
  r = adaptiveWait ops pass adaptiveDelay budget v a h.
Proof.
  revert v a h. induction budget as [|b IH]; intros v a h; simpl.
  - by intros [= <-].
  - destruct (tryPass (document ops (sleep ops adaptiveDelay v)) a)
      as [a' []]; simpl; [|done].
    destruct (_ && _); [by intros [= <-] | apply IH].
Qed.

Lemma tryIteration_Some st r :
  tryIteration ops tryPass adaptiveMax adaptiveDelay scrollStep st = Some r →
  r = iteration ops pass adaptiveMax adaptiveDelay scrollStep st.
Proof.
  unfold tryIteration, iteration.
  destruct (tryPass _ (acc st)) as [a1 []]; simpl; [|done].
  destruct (tryAdaptiveWait _ _ _ _ _ _ _) as [w|] eqn:Hw; [|done].
  apply tryAdaptiveWait_Some in Hw. rewrite <- Hw.
  destruct w as [[v2 a2] h2].
  repeat (destruct (_ : bool); simpl); by intros [= <-].
Qed.

Lemma tryScrollLoop_Some remaining st r :
  tryScrollLoop ops tryPass adaptiveMax adaptiveDelay scrollStep remaining st
  = Some r →
  r = scrollLoop ops pass adaptiveMax adaptiveDelay scrollStep remaining st.
Proof.
  revert st. induction remaining as [|n IH]; intros st; simpl.
  - by intros [= <-].
  - destruct (tryIteration _ _ _ _ _ st) as [i|] eqn:Hi; [|done].
    apply tryIteration_Some in Hi. rewrite <- Hi.
    destruct i as [st' [e|]]; [by intros [= <-] | apply IH].
Qed.

(** When no pass on a document of the view throws, the loop is not left
    by a throw. *)
Hypothesis returns : ∀ v a, (tryPass (document ops v) a).2 = Returned.

Lemma tryAdaptiveWait_returns budget v a h :
  tryAdaptiveWait ops tryPass adaptiveDelay budget v a h
  = Some (adaptiveWait ops pass adaptiveDelay budget v a h).
Proof.
  revert v a h. induction budget as [|b IH]; intros v a h; simpl; [done|].
  pose proof (returns (sleep ops adaptiveDelay v) a) as Hr.
  destruct (tryPass (document ops (sleep ops adaptiveDelay v)) a) as [a' c].
  simpl in *. subst c. destruct (_ && _); [done | apply IH].
Qed.

Lemma tryIteration_returns st :
  tryIteration ops tryPass adaptiveMax adaptiveDelay scrollStep st
  = Some (iteration ops pass adaptiveMax adaptiveDelay scrollStep st).
Proof.
  unfold tryIteration, iteration.
  pose proof (returns (sleep ops 50 (scrollBy ops (- scrollStep) (view st)))
                (acc st)) as Hr.
  destruct (tryPass _ (acc st)) as [a1 c]. simpl in *. subst c.
  rewrite tryAdaptiveWait_returns.
  destruct (adaptiveWait _ _ _ _ _ _ _) as [[v2 a2] h2].
  by repeat (destruct (_ : bool); simpl).
Qed.

Lemma tryScrollLoop_returns remaining st :
  tryScrollLoop ops tryPass adaptiveMax adaptiveDelay scrollStep remaining st
  = Some (scrollLoop ops pass adaptiveMax adaptiveDelay scrollStep remaining st).
Proof.
  revert st. induction remaining as [|n IH]; intros st; simpl; [done|].
  rewrite tryIteration_returns.
  destruct (iteration _ _ _ _ _ st) as [st' [e|]]; [done | apply IH].
Qed.
End TryLoop.

(** A run of the driver of revision 1 in which no pass threw is the run
    that takes from every pass what it leaves. *)
Lemma tryAutoScrollConversation_Some {View} (ops : ViewOps View V1.Doc)
    share v a r :
  V1.tryAutoScrollConversation ops share v a = Some r →
  r = V1.autoScrollConversation ops share v a.
Proof.
  unfold V1.tryAutoScrollConversation, V1.autoScrollConversation,
    V1.extractVisibleMessages.
  destruct (V1.tryExtractVisibleMessages (document ops v) a) as [a0 []];
    cbn [fst snd]; [|done].
  destruct (tryScrollLoop _ _ _ _ _ _ _) as [l|] eqn:Hl; [|done].
  apply tryScrollLoop_Some in Hl. rewrite <- Hl. destruct l as [st e].
  destruct (V1.tryExtractVisibleMessages (document ops (view st)) (acc st))
    as [a1 []]; cbn [fst snd]; [|done].
  by intros [= <-].
Qed.

(** No pass throws when no document of the view has an SVG candidate. *)
Lemma tryAutoScrollConversation_returns {View} (ops : ViewOps View V1.Doc)
    share v a :
  (∀ v', svgCandidate (document ops v') = false) →
  V1.tryAutoScrollConversation ops share v a
  = Some (V1.autoScrollConversation ops share v a).
Proof.
  intros Hsvg.
  assert (∀ v' a', (V1.tryExtractVisibleMessages (document ops v') a').2
                   = Returned) as Hret.
  { intros v' a'. by rewrite tryExtractVisibleMessages_eq, Hsvg. }
  unfold V1.tryAutoScrollConversation, V1.autoScrollConversation,
    V1.extractVisibleMessages.
  pose proof (Hret v a) as H0.
  destruct (V1.tryExtractVisibleMessages (document ops v) a) as [a0 c0].
  cbn [fst snd] in *. subst c0.
  rewrite (tryScrollLoop_returns ops V1.tryExtractVisibleMessages) by done.
  destruct (scrollLoop _ _ _ _ _ _ _) as [st e].
  pose proof (Hret (view st) (acc st)) as H1.
  destruct (V1.tryExtractVisibleMessages (document ops (view st)) (acc st))
    as [a1 c1].
  cbn [fst snd] in *. by subst c1.
Qed.

(** The first pass throws on a document with an SVG candidate. *)
Lemma tryAutoScrollConversation_throws {View} (ops : ViewOps View V1.Doc)
    share v a :
  svgCandidate (document ops v) = true →
  V1.tryAutoScrollConversation ops share v a = None.
Proof.
  intros Hsvg. unfold V1.tryAutoScrollConversation.
  by rewrite tryExtractVisibleMessages_eq, Hsvg.
Qed.

(** The answer of revision 1 to a request whose driver returned. *)
Lemma extractChat1_returned {View} (ops : ViewOps View V1.Doc)
    share typeError v title date timezone :
  V1.tryAutoScrollConversation ops share v emptyAcc
  = Some (V1.autoScrollConversation ops share v emptyAcc) →
  let found := messages (acc (V1.autoScrollConversation ops share v emptyAcc).1) in
  V1.extractChat ops share typeError v title date timezone
  = if decide (found = []) then Failure noMessagesError
    else Success (V1.formatAsMarkdown (reverse found) title date timezone)
                 title (length found).
Proof.
  intros Htry found. unfold V1.extractChat. rewrite Htry.
  pose proof (deduplicateMessages_accumulated _
    (reachable1_AccInv _ (autoScrollConversation1_reachable ops share v))) as Hd.
  unfold found.
  destruct (V1.autoScrollConversation ops share v emptyAcc) as [st e].
  cbn [fst] in *. by rewrite respond1_inr, Hd.
Qed.

(** X7: the final [deduplicateMessages] of the handler removes nothing
    from what the driver accumulated.  When the driver returns,
    [messageCount] is the number of accumulated messages and the request
    fails with the no-messages text exactly when the driver found none;
    the driver of revision 2 always returns, and when a pass of revision 1
    throws the request is answered with the extraction failure. *)
Theorem response_counts_accumulated_messages {View}
    (ops1 : ViewOps View V1.Doc) (ops2 : ViewOps View V2.Doc)
    (share : Z → Z) (typeError : jsstring) (v : View)
    (title date timezone : jsstring) :
  ((V1.tryAutoScrollConversation ops1 share v emptyAcc = None
    ∧ V1.extractChat ops1 share typeError v title date timezone
      = Failure (extractionError typeError))
   ∨ (∃ st e,
        V1.tryAutoScrollConversation ops1 share v emptyAcc = Some (st, e)
        ∧ let found := messages (acc st) in
          deduplicateMessages found = found
          ∧ V1.extractChat ops1 share typeError v title date timezone
            = if decide (found = []) then Failure noMessagesError
              else Success (V1.formatAsMarkdown (reverse found)
                                                title date timezone)
                           title (length found)))
  ∧ (let found := messages (acc (V2.autoScrollConversation ops2 share v emptyAcc).1) in
     deduplicateMessages found = found
     ∧ V2.extractChat ops2 share v title date timezone
       = if decide (found = []) then Failure noMessagesError
         else Success (V2.formatAsMarkdown found title date timezone)
                      title (length found)).
Proof.
  split; cbn zeta.
  - pose proof (deduplicateMessages_accumulated _
      (reachable1_AccInv _ (autoScrollConversation1_reachable ops1 share v))) as Hd.
    destruct (V1.tryAutoScrollConversation ops1 share v emptyAcc) as [r|] eqn:Htry.
    + right. apply tryAutoScrollConversation_Some in Htry as Hr.
      pose proof (extractChat1_returned ops1 share typeError v title date
                    timezone) as Hx.
      rewrite <- Hr in Hx, Hd. specialize (Hx Htry).
      destruct r as [st e]. by exists st, e.
    + left. split; [done|]. unfold V1.extractChat. by rewrite Htry.
  - pose proof (deduplicateMessages_accumulated _
      (reachable2_AccInv _ (autoScrollConversation2_reachable ops2 share v))) as Hd.
    split; [done|]. unfold V2.extractChat.
    destruct (V2.autoScrollConversation ops2 share v emptyAcc) as [st e].
    cbn [fst] in *. by rewrite respond2_inr, Hd.
Qed.

(** After a driver, the accumulator is the result of a pass on a document
    of the view, made on an accumulator that has the property every such
    pass keeps. *)
Lemma autoScrollConversation1_last_pass {View} (ops : ViewOps View V1.Doc)
    share v a (P : Acc → Prop) :
  (∀ v' a', P a' → P (V1.extractVisibleMessages (document ops v') a')) →
  P a →
  ∃ v' a', P a'
    ∧ acc (V1.autoScrollConversation ops share v a).1
      = V1.extractVisibleMessages (document ops v') a'.
Proof.
  intros Hpass Ha. unfold V1.autoScrollConversation.
  match goal with |- context [scrollLoop ?o ?e ?m ?d ?s ?n ?st] =>
    pose proof (scrollLoop_keeps o e m d s P Hpass n st) as H;
    destruct (scrollLoop o e m d s n st) as [st' e'] end.
  simpl in *. eexists _, _. split; [|done]. auto.
Qed.

Lemma autoScrollConversation2_last_pass {View} (ops : ViewOps View V2.Doc)
    share v a (P : Acc → Prop) :
  (∀ v' p a', P a' → P (V2.extractVisibleMessages (document ops v') p a')) →
  P a →
  ∃ v' a', P a'
    ∧ acc (V2.autoScrollConversation ops share v a).1
      = V2.extractVisibleMessages (document ops v') true a'.
Proof.
  intros Hpass Ha. unfold V2.autoScrollConversation.
  match goal with |- context [scrollLoop ?o ?e ?m ?d ?s ?n ?st] =>
    pose proof (scrollLoop_keeps o e m d s P (λ v' a', Hpass v' true a') n st) as H;
    destruct (scrollLoop o e m d s n st) as [st' e'] end.
  simpl in *. eexists _, _. split; [|done]. auto 10.
Qed.

Lemma static_page_accumulates1 {View} (ops : ViewOps View V1.Doc) share v doc :
  (∀ v', document ops v' = doc) →
  acc (V1.autoScrollConversation ops share v emptyAcc).1
  = absorb emptyAcc (candidates1 doc).
Proof.
  intros Hdoc.
  destruct (autoScrollConversation1_last_pass ops share v emptyAcc
    (λ a', V1.extractVisibleMessages doc a' = absorb emptyAcc (candidates1 doc)))
    as (v' & a' & Ha' & ->).
  - intros v' a' Ha'. rewrite Hdoc.
    rewrite (proj1 (extraction_pass_idempotent_aux a' doc [] false false)).
    done.
  - apply extractVisibleMessages1_absorb.
  - by rewrite Hdoc.
Qed.

Lemma static_page_accumulates2 {View} (ops : ViewOps View V2.Doc) share v doc :
  (∀ v', document ops v' = doc) →
  acc (V2.autoScrollConversation ops share v emptyAcc).1
  = absorb emptyAcc (candidates2 doc).
Proof.
  intros Hdoc.
  assert (∀ p, V2.extractVisibleMessages doc p emptyAcc
               = absorb emptyAcc (candidates2 doc)) as Hfirst.
  { intros p. rewrite extractVisibleMessages2_absorb. destruct p; [|done].
    apply Acc_eq; simpl; [|done]. by rewrite drop_0, app_nil_r. }
  destruct (autoScrollConversation2_last_pass ops share v emptyAcc
    (λ a', ∀ p, V2.extractVisibleMessages doc p a'
                = absorb emptyAcc (candidates2 doc)))
    as (v' & a' & Ha' & ->).
  - intros v' p a' Ha' q. rewrite Hdoc.
    rewrite (proj2 (extraction_pass_idempotent_aux a' (V1.mkDoc [] None) doc p q)).
    apply Ha'.
  - done.
  - rewrite Hdoc. apply Ha'.
Qed.

(** X8: when the page shows the same document throughout, however the
    view scrolls, revision 2 exports the document's messages in document
    order, each fingerprint once. *)
Theorem static_page_export2 {View} (ops : ViewOps View V2.Doc)
    (share : Z → Z) (v : View) (doc : V2.Doc) (title date timezone : jsstring) :
  (∀ v', document ops v' = doc) →
  messages (acc (V2.autoScrollConversation ops share v emptyAcc).1)
  = deduplicateMessages (candidates2 doc)
  ∧ V2.extractChat ops share v title date timezone
    = if decide (deduplicateMessages (candidates2 doc) = [])
      then Failure noMessagesError
      else Success (V2.formatAsMarkdown (deduplicateMessages (candidates2 doc))
                                        title date timezone)
                   title (length (deduplicateMessages (candidates2 doc))).
Proof.
  intros Hdoc. pose proof (static_page_accumulates2 ops share v doc Hdoc) as Hacc.
  unfold V2.extractChat.
  destruct (V2.autoScrollConversation ops share v emptyAcc) as [st e].
  cbn [fst] in *. rewrite Hacc, respond2_inr. simpl.
  rewrite <- deduplicateMessages_eq.
  by rewrite (deduplicateMessages_id _ (deduplicateMessages_NoDup _)).
Qed.

Lemma static_page_export2_witness :
  let doc := [V2.mkLocated V2.USER_QUERY (mkElement (classString []) None None (js "Q"));
              V2.mkLocated V2.MODEL_RESPONSE (mkElement (classString []) None None (js "A"))] in
  (∀ v', document (stillView doc) v' = doc)
  ∧ messages (acc (V2.autoScrollConversation (stillView doc)
                     (λ h, (h * 7 / 10)%Z) 5000%Z emptyAcc).1)
    = deduplicateMessages (candidates2 doc).
Proof.
  intros doc. split; [done|].
  exact (proj1 (static_page_export2 (stillView doc) (λ h, (h * 7 / 10)%Z)
                  5000%Z doc [] [] [] (λ _, eq_refl))).
Defined.

(** X9: when the page shows the same document throughout, revision 1
    fails with the extraction error if the document has no turn container
    and an SVG candidate in [main]; otherwise it exports the document's
    messages, each fingerprint once, in the reverse of document order: a
    pass appends them in document order and the handler reverses the whole
    list. *)
Theorem static_page_export1_is_reversed {View} (ops : ViewOps View V1.Doc)
    (share : Z → Z) (typeError : jsstring) (v : View) (doc : V1.Doc)
    (title date timezone : jsstring) :
  (∀ v', document ops v' = doc) →
  (if svgCandidate doc
   then V1.tryAutoScrollConversation ops share v emptyAcc = None
   else ∃ st e,
          V1.tryAutoScrollConversation ops share v emptyAcc = Some (st, e)
          ∧ messages (acc st) = deduplicateMessages (candidates1 doc))
  ∧ V1.extractChat ops share typeError v title date timezone
    = if svgCandidate doc then Failure (extractionError typeError)
      else if decide (deduplicateMessages (candidates1 doc) = [])
      then Failure noMessagesError
      else Success (V1.formatAsMarkdown
                      (reverse (deduplicateMessages (candidates1 doc)))
                      title date timezone)
                   title (length (deduplicateMessages (candidates1 doc))).
Proof.
  intros Hdoc. pose proof (static_page_accumulates1 ops share v doc Hdoc) as Hacc.
  assert (messages (acc (V1.autoScrollConversation ops share v emptyAcc).1)
          = deduplicateMessages (candidates1 doc)) as Hfound.
  { rewrite Hacc. simpl. by rewrite <- deduplicateMessages_eq. }
  destruct (svgCandidate doc) eqn:Hsvg.
  - assert (V1.tryAutoScrollConversation ops share v emptyAcc = None) as Htry
      by (apply tryAutoScrollConversation_throws; by rewrite Hdoc).
    split; [done|]. unfold V1.extractChat. by rewrite Htry.
  - assert (V1.tryAutoScrollConversation ops share v emptyAcc
            = Some (V1.autoScrollConversation ops share v emptyAcc)) as Htry
      by (apply tryAutoScrollConversation_returns; intros v'; by rewrite Hdoc).
    split.
    + destruct (V1.autoScrollConversation ops share v emptyAcc) as [st e].
      by exists st, e.
    + rewrite extractChat1_returned by done. cbn zeta. by rewrite Hfound.
Qed.

Lemma static_page_export1_is_reversed_witness :
  let doc := V1.mkDoc [V1.mkTurn None
                         (Some (mkElement (classString []) None None (js "Q")))
                         (Some (mkElement (classString []) None None (js "A")))]
                      None in
  (∀ v', document (stillView doc) v' = doc)
  ∧ V1.extractChat (stillView doc) (λ h, (h * 9 / 10)%Z) (js "E") 5000%Z
                   (js "T") (js "D") (js "UTC")
    = Success (V1.formatAsMarkdown
                 [mkMessage assistant (js "A") None; mkMessage user (js "Q") None]
                 (js "T") (js "D") (js "UTC"))
              (js "T") 2.
Proof.
  intros doc. split; [done|].
  exact (proj2 (static_page_export1_is_reversed (stillView doc)
                  (λ h, (h * 9 / 10)%Z) (js "E") 5000%Z doc
                  (js "T") (js "D") (js "UTC") (λ _, eq_refl))).
Defined.

(** X23: an SVG element among the candidates of [main] fails the whole
    request of revision 1, whatever else the page holds: when the document
    shown as the request starts has no turn container and such a candidate,
    the answer is the extraction failure with the message of the
    [TypeError].  When no document the view shows has one, no pass throws
    and the driver returns; and whenever the driver returns, it went the
    way of the run that takes from every pass what it leaves. *)
Theorem svg_candidate_fails_the_request {View} (ops : ViewOps View V1.Doc)
    (share : Z → Z) (typeError : jsstring) (v : View) (a : Acc)
    (title date timezone : jsstring) :
  (svgCandidate (document ops v) = true →
   V1.tryAutoScrollConversation ops share v a = None
   ∧ V1.extractChat ops share typeError v title date timezone
     = Failure (extractionError typeError))
  ∧ ((∀ v', svgCandidate (document ops v') = false) →
     V1.tryAutoScrollConversation ops share v a
     = Some (V1.autoScrollConversation ops share v a))
  ∧ (∀ r, V1.tryAutoScrollConversation ops share v a = Some r →
          r = V1.autoScrollConversation ops share v a).
Proof.
  split; [|split].
  - intros Hsvg. split; [by apply tryAutoScrollConversation_throws|].
    unfold V1.extractChat. by rewrite tryAutoScrollConversation_throws.
  - apply tryAutoScrollConversation_returns.
  - apply tryAutoScrollConversation_Some.
Qed.

Lemma svg_candidate_fails_the_request_witness :
  let answer := mkElement (classString (js "response-text")) None None
                          (js "An answer.") in
  let icon := mkElement animatedString None None [] in
  let doc := V1.mkDoc [] (Some [answer; icon]) in
  let plain := V1.mkDoc [] (Some [answer]) in
  (svgCandidate (document (stillView doc) 5000%Z) = true
   ∧ messages (V1.extractVisibleMessages doc emptyAcc)
     = [mkMessage assistant (js "An answer.") None]
   ∧ V1.extractChat (stillView doc) (λ h, (h * 9 / 10)%Z) (js "E") 5000%Z
                    (js "T") (js "D") (js "UTC")
     = Failure (extractionError (js "E")))
  ∧ ((∀ v', svgCandidate (document (stillView plain) v') = false)
     ∧ V1.tryAutoScrollConversation (stillView plain) (λ h, (h * 9 / 10)%Z)
                                    5000%Z emptyAcc
       = Some (V1.autoScrollConversation (stillView plain)
                 (λ h, (h * 9 / 10)%Z) 5000%Z emptyAcc)).
Proof.
  intros answer icon doc plain. split.
  - split; [reflexivity|]. split; [reflexivity|].
    exact (proj2 (proj1 (svg_candidate_fails_the_request (stillView doc)
                           (λ h, (h * 9 / 10)%Z) (js "E") 5000%Z emptyAcc
                           (js "T") (js "D") (js "UTC")) eq_refl)).
  - split; [by intros v'|].
    exact (proj1 (proj2 (svg_candidate_fails_the_request (stillView plain)
                           (λ h, (h * 9 / 10)%Z) (js "E") 5000%Z emptyAcc
                           (js "T") (js "D") (js "UTC"))) (λ _, eq_refl)).
Defined.

(** ** The scroll loop on a view that scrolls as asked *)

Section LoopProgress.
Context {View Doc : Type} (ops : ViewOps View Doc).
Variable extractPass : Doc → Acc → Acc.
Variables (adaptiveMax : nat) (adaptiveDelay step : Z).
Hypothesis asked : scrollsAsAsked ops step.
Hypothesis wide : (10 <= step)%Z.

Local Abbreviation iter := (iteration ops extractPass adaptiveMax adaptiveDelay step).
Local Abbreviation loop := (scrollLoop ops extractPass adaptiveMax adaptiveDelay step).

Lemma adaptiveWait_top budget v a h :
  getScrollTop ops (adaptiveWait ops extractPass adaptiveDelay budget v a h).1.1
  = getScrollTop ops v.
Proof.
  destruct asked as [_ Hsleep].
  revert v a h. induction budget as [|b IH]; intros v a h; simpl; [done|].
  destruct (_ && _); simpl; [apply Hsleep|]. by rewrite IH, Hsleep.
Qed.

Lemma iteration_asked st :
  (0 <= getScrollTop ops (view st))%Z → stuckCount st ≤ 1 →
  getScrollTop ops (view (iter st).1)
  = Z.max 0 (getScrollTop ops (view st) - step)
  ∧ (iter st).2
    = (if (getScrollTop ops (view st) - step <=? 10)%Z then Some AtTop else None)
  ∧ ((iter st).2 = None → stuckCount (iter st).1 = 0)
  ∧ advances (iter st).1 = S (advances st).
Proof.
  intros Hpos Hstuck. unfold iteration. destruct asked as [Hby Hsleep].
  set (T := getScrollTop ops (view st)) in *.
  set (v1 := sleep ops 50 (scrollBy ops (- step) (view st))).
  assert (getScrollTop ops v1 = Z.max 0 (T - step)) as Htop
    by (unfold v1, T; by rewrite Hsleep, Hby).
  pose proof (adaptiveWait_top adaptiveMax v1
                (extractPass (document ops v1) (acc st))
                (getScrollHeight ops v1)) as Hsame.
  destruct (adaptiveWait _ _ _ _ _ _ _) as [[v2 a2] h2]. simpl in Hsame.
  rewrite Htop.
  set (stuck0 := if (h2 >? getScrollHeight ops (view st))%Z then 0
                 else stuckCount st).
  assert (stuck0 ≤ 1) by (unfold stuck0; destruct (_ >? _)%Z; lia).
  destruct (Z.ltb_spec (Z.abs (Z.max 0 (T - step) - T)) 10) as [Hnear|Hfar];
    cbn [andb].
  - rewrite (proj2 (Nat.leb_gt 3 (S stuck0))) by lia.
    replace (Z.max 0 (T - step) <=? 10)%Z with true by lia.
    replace (T - step <=? 10)%Z with true by lia.
    simpl. rewrite Hsame, Htop. done.
  - destruct (Z.leb_spec (Z.max 0 (T - step)) 10).
    + replace (T - step <=? 10)%Z with true by lia.
      simpl. rewrite Hsame, Htop. done.
    + replace (T - step <=? 10)%Z with false by lia.
      simpl. rewrite Hsame, Htop. done.
Qed.

Lemma scrollLoop_asked remaining st :
  (0 <= getScrollTop ops (view st))%Z → stuckCount st ≤ 1 →
  let top := getScrollTop ops (view st) in
  let final := (loop remaining st).1 in
  ((10 < top - Z.of_nat remaining * step)%Z →
     (loop remaining st).2 = HardCap
     ∧ advances final = advances st + remaining
     ∧ getScrollTop ops (view final) = (top - Z.of_nat remaining * step)%Z)
  ∧ ((top - Z.of_nat remaining * step <= 10)%Z → 1 ≤ remaining →
     (loop remaining st).2 = AtTop
     ∧ (getScrollTop ops (view final) <= 10)%Z
     ∧ ∃ k, 1 ≤ k ≤ remaining
         ∧ advances final = advances st + k
         ∧ (top - Z.of_nat k * step <= 10)%Z
         ∧ (k = 1 ∨ (10 < top - (Z.of_nat k - 1) * step)%Z)).
Proof.
  revert st. induction remaining as [|n IH]; intros st Hpos Hstuck; cbn zeta.
  - split; [|lia]. intros Hfar. simpl. split; [done|]. split; lia.
  - cbn [scrollLoop].
    destruct (iteration_asked st Hpos Hstuck) as (Htop & Hexit & Hcount & Hadv).
    destruct (iter st) as [st' e]. cbn [fst snd] in *. subst e.
    destruct (Z.leb_spec (getScrollTop ops (view st) - step) 10) as [Hnear|Hfar];
      cbv beta iota; cbn [fst snd].
    + split; [intros; nia|]. intros _ _. split; [done|]. split; [lia|].
      exists 1. repeat split; try lia.
    + assert (getScrollTop ops (view st') = getScrollTop ops (view st) - step)%Z
        as Htop' by lia.
      destruct (IH st') as [IHcap IHtop]; [lia | rewrite Hcount; [lia | done] |].
      cbn zeta in *. rewrite Htop', Hadv in *. split.
      * intros Hcap. destruct IHcap as (-> & -> & ->); [nia|].
        split; [done|]. split; [lia | nia].
      * intros Hin _. destruct IHtop as (-> & Hle & k & Hk & -> & Hk1 & Hk2);
          [nia | destruct n; [nia | lia] |].
        split; [done|]. split; [done|]. exists (S k).
        repeat split; try lia; try nia.
Qed.
End LoopProgress.



(** ** Decimal strings *)

Lemma isDigit_bounds c : isDigit c = true ↔ (48 ≤ c ≤ 57)%N.
Proof. unfold isDigit. rewrite andb_true_iff, !N.leb_le. done. Qed.

Lemma isDigit_not_space c : isDigit c = true → isWhiteSpace c = false.
Proof.
  intros [H1 H2]%isDigit_bounds. unfold isWhiteSpace.
  repeat (apply orb_false_intro); try (apply N.eqb_neq; lia).
  apply andb_false_intro1, N.leb_gt. lia.
Qed.

Lemma digitsValue_digits (ds : jsstring) acc :
  Forall (λ c, isDigit c = true) ds →
  (0 <= digitsValue 0 ds < 10 ^ Z.of_nat (length ds))%Z
  ∧ digitsValue acc ds
    = (acc * 10 ^ Z.of_nat (length ds) + digitsValue 0 ds)%Z.
Proof.
  intros Hds. revert acc. induction Hds as [|c ds Hc Hds IH]; intros acc.
  - simpl. lia.
  - cbn [digitsValue length]. rewrite Hc.
    apply isDigit_bounds in Hc.
    destruct (IH (10 * acc + Z.of_N (c - 48))%Z) as [Hb ->].
    destruct (IH (10 * 0 + Z.of_N (c - 48))%Z) as [_ ->].
    rewrite Nat2Z.inj_succ, Z.pow_succ_r by lia. split; nia.
Qed.

Lemma digitsValue_leading (c : N) (ds : jsstring) :
  Forall (λ c, isDigit c = true) (c :: ds) → c ≠ 48%N →
  (10 ^ Z.of_nat (length ds) <= digitsValue 0 (c :: ds))%Z.
Proof.
  intros Hds Hc. inversion Hds as [|? ? Hd Hrest]; subst.
  cbn [digitsValue]. rewrite Hd. apply isDigit_bounds in Hd.
  destruct (digitsValue_digits ds (10 * 0 + Z.of_N (c - 48))%Z Hrest) as [Hb ->].
  nia.
Qed.

Lemma parseInt10_digits (ds : jsstring) :
  Forall (λ c, isDigit c = true) ds → ds ≠ [] →
  parseInt10 ds = Some (digitsValue 0 ds).
Proof.
  intros Hds Hne. destruct ds as [|c ds]; [done|].
  inversion Hds as [|? ? Hc Hrest]; subst.
  unfold parseInt10. cbn [trimStart]. rewrite (isDigit_not_space c Hc).
  pose proof (proj1 (isDigit_bounds c) Hc) as Hb.
  assert (c ≠ 45%N ∧ c ≠ 43%N) as [H45 H43] by lia.
  destruct c as [|p]; [lia|].
  repeat (destruct p as [p|p|]; try (exfalso; lia); try done);
    rewrite ?Hc; f_equal; lia.
Qed.

(** X11: a string of one to ten decimal digits is rendered as that many
    seconds after the epoch; a string of eleven to fifteen digits that
    does not start with 0 is rendered as that many milliseconds. *)
Theorem formatTimestamp_digit_strings
    (toLocaleString : Z → jsstring) (dateParse : jsstring → option Z)
    (value : jsstring) :
  Forall (λ c, isDigit c = true) value →
  (1 ≤ length value ≤ 10 →
     formatTimestamp toLocaleString dateParse value
     = toLocaleString (digitsValue 0 value * 1000)%Z)
  ∧ (11 ≤ length value ≤ 15 → head value ≠ Some 48%N →
     formatTimestamp toLocaleString dateParse value
     = toLocaleString (digitsValue 0 value)).
Proof.
  intros Hds.
  destruct (digitsValue_digits value 0 Hds) as [[Hlo Hhi] _].
  split.
  - intros Hlen.
    assert (10 ^ Z.of_nat (length value) <= 10 ^ 10)%Z
      by (apply Z.pow_le_mono_r; lia).
    change (10 ^ 10)%Z with 10000000000%Z in *.
    rewrite (formatTimestamp_integer_prefix _ _ _ (digitsValue 0 value)).
    + by replace (digitsValue 0 value >? 9999999999)%Z with false by lia.
    + apply parseInt10_digits; [done|]. destruct value; simpl in *; [lia|done].
    + replace (digitsValue 0 value >? 9999999999)%Z with false by lia.
      unfold validTime. lia.
  - intros Hlen Hhead. destruct value as [|c ds]; [simpl in *; lia|].
    assert (c ≠ 48%N) as Hc by (intros ->; by apply Hhead).
    pose proof (digitsValue_leading c ds Hds Hc) as Hlead.
    assert (10 ^ 10 <= 10 ^ Z.of_nat (length ds))%Z
      by (apply Z.pow_le_mono_r; simpl in Hlen; lia).
    assert (10 ^ Z.of_nat (length (c :: ds)) <= 10 ^ 15)%Z
      by (apply Z.pow_le_mono_r; lia).
    change (10 ^ 10)%Z with 10000000000%Z in *.
    change (10 ^ 15)%Z with 1000000000000000%Z in *.
    rewrite (formatTimestamp_integer_prefix _ _ _ (digitsValue 0 (c :: ds))).
    + by replace (digitsValue 0 (c :: ds) >? 9999999999)%Z with true by lia.
    + by apply parseInt10_digits.
    + replace (digitsValue 0 (c :: ds) >? 9999999999)%Z with true by lia.
      unfold validTime. lia.
Qed.

Lemma formatTimestamp_digit_strings_witness :
  Forall (λ c, isDigit c = true) (js "1700000000")
  ∧ 1 ≤ length (js "1700000000") ≤ 10
  ∧ formatTimestamp (λ t, js "t") (λ _, None) (js "1700000000")
    = (λ t : Z, js "t") (digitsValue 0 (js "1700000000") * 1000)%Z.
Proof.
  assert (H : Forall (λ c, isDigit c = true) (js "1700000000"))
    by (repeat constructor).
  assert (Hlen : 1 ≤ length (js "1700000000") ≤ 10) by (simpl; lia).
  exact (conj H (conj Hlen
    (proj1 (formatTimestamp_digit_strings (λ t, js "t") (λ _, None)
              (js "1700000000") H) Hlen))).
Defined.

Lemma js_inj s t : js s = js t → s = t.
Proof.
  unfold js. intros H.
  rewrite <- (string_of_list_ascii_of_string s),
          <- (string_of_list_ascii_of_string t).
  f_equal. revert H. generalize (list_ascii_of_string s), (list_ascii_of_string t).
  induction l as [|a l IH]; intros [|b l'] H; try done.
  injection H as Hab Hl. f_equal; [|by apply IH].
  by rewrite <- (ascii_N_embedding a), <- (ascii_N_embedding b), Hab.
Qed.

Lemma to_uint_not_nil n : Nat.to_uint n ≠ Decimal.Nil.
Proof.
  rewrite <- (Unsigned.of_to n), Unsigned.to_of. unfold Decimal.unorm.
  by destruct (Decimal.nzhead (Nat.to_uint n)).
Qed.

Lemma decimal_inj n m : decimal n = decimal m → n = m.
Proof.
  unfold decimal. intros H%js_inj. apply Unsigned.to_uint_inj.
  apply (f_equal NilZero.uint_of_string) in H.
  rewrite !NilZero.usu in H by apply to_uint_not_nil. by injection H.
Qed.

Lemma decimal_digits n : Forall (λ c, isDigit c = true) (decimal n).
Proof.
  unfold decimal. generalize (Nat.to_uint n). intros d.
  assert (Forall (λ c, isDigit c = true) (js (NilEmpty.string_of_uint d))) as Hd.
  { induction d; simpl; constructor; done. }
  destruct d; try exact Hd. by repeat constructor.
Qed.

(** The text before and after the first [c] of a string. *)
Lemma first_split {A} (c : A) l1 r1 l2 r2 :
  c ∉ l1 → c ∉ l2 → l1 ++ c :: r1 = l2 ++ c :: r2 → l1 = l2 ∧ r1 = r2.
Proof.
  revert l2. induction l1 as [|x l1 IH]; intros [|y l2] H1 H2 Heq;
    simpl in *.
  - by injection Heq.
  - injection Heq as -> _. exfalso. apply H2. by left.
  - injection Heq as -> _. exfalso. apply H1. by left.
  - injection Heq as -> Heq. destruct (IH l2) as [-> ->]; try done.
    + intros ?. apply H1. by right.
    + intros ?. apply H2. by right.
Qed.

(** The text before and after the last [c] of a string. *)
Lemma last_split {A} (c : A) l1 r1 l2 r2 :
  c ∉ r1 → c ∉ r2 → l1 ++ c :: r1 = l2 ++ c :: r2 → l1 = l2 ∧ r1 = r2.
Proof.
  intros H1 H2 Heq. apply (f_equal reverse) in Heq.
  rewrite !reverse_app, !reverse_cons, <- !app_assoc in Heq. simpl in Heq.
  destruct (first_split c (reverse r1) (reverse l1) (reverse r2) (reverse l2))
    as [Hr Hl]; rewrite ?elem_of_reverse; try done.
  split; [by apply (inj reverse) | by apply (inj reverse)].
Qed.

Lemma bar_not_digit n : 124%N ∉ decimal n.
Proof.
  intros Hin. pose proof (decimal_digits n) as Hd.
  eapply Forall_forall in Hd; [|exact Hin]. done.
Qed.

(** X12: two contents have the same fingerprint exactly when both are
    empty, or neither is and they have the same length and the same
    trimmed first 100 code units. *)
Theorem fingerprint_collisions (a b : jsstring) :
  hashContent a = hashContent b
  ↔ (a = [] ∧ b = [])
    ∨ (a ≠ [] ∧ b ≠ [] ∧ length a = length b
       ∧ trim (take 100 a) = trim (take 100 b)).
Proof.
  assert (∀ c : jsstring, c ≠ [] →
            hashContent c = trim (take 100 c) ++ 124%N :: decimal (length c))
    as Hform by (intros [|x c] Hc; [done | reflexivity]).
  split.
  - intros Heq. destruct a as [|x a], b as [|y b].
    + by left.
    + rewrite (Hform (y :: b)) in Heq by done.
      by destruct (trim (take 100 (y :: b))).
    + rewrite (Hform (x :: a)) in Heq by done.
      by destruct (trim (take 100 (x :: a))).
    + right. rewrite !Hform in Heq by done.
      apply last_split in Heq as [Hp Hd]; try apply bar_not_digit.
      apply decimal_inj in Hd. done.
  - intros [[-> ->]|(Ha & Hb & Hlen & Hpre)]; [done|].
    by rewrite !Hform, Hlen, Hpre.
Qed.

(** ** The file name of an export *)

Lemma isFileChar_not_dash c : isFileChar c = true → c ≠ 45%N.
Proof. by intros H ->. Qed.

Lemma occursIn_dashes_cons c (l : jsstring) :
  occursIn [45; 45]%N (c :: l)
  ↔ (c = 45%N ∧ head l = Some 45%N) ∨ occursIn [45; 45]%N l.
Proof.
  unfold occursIn. split.
  - intros ([|x l1] & l2 & H); simpl in H.
    + injection H as -> ->. by left.
    + injection H as -> ->. right. by exists l1, l2.
  - intros [[-> Hh]|(l1 & l2 & ->)].
    + destruct l as [|d l]; [done|]. injection Hh as ->. by exists [], l.
    + by exists (c :: l1), l2.
Qed.

Lemma occursIn_nil_dashes : ¬ occursIn [45; 45]%N [].
Proof. intros ([|x l1] & l2 & H); done. Qed.

Lemma dashRuns_shape inRun s :
  Forall (λ c, isFileChar c = true ∨ c = 45%N) (dashRuns inRun s)
  ∧ ¬ occursIn [45; 45]%N (dashRuns inRun s)
  ∧ (inRun = true → head (dashRuns inRun s) ≠ Some 45%N).
Proof.
  revert inRun. induction s as [|c s IH]; intros inRun.
  - simpl. split; [constructor|]. split; [apply occursIn_nil_dashes | done].
  - cbn [dashRuns]. destruct (isFileChar c) eqn:Hc.
    + destruct (IH false) as (Hf & Hd & _). split; [constructor; auto|]. split.
      * rewrite occursIn_dashes_cons. intros [[-> _]|?]; done.
      * simpl. intros _ [= ->]. done.
    + destruct inRun; [apply IH|].
      destruct (IH true) as (Hf & Hd & Hh). split; [constructor; auto|]. split.
      * rewrite occursIn_dashes_cons. intros [[_ ?]|?]; [by apply Hh | done].
      * done.
Qed.

Lemma dropTrailingDash_cases s :
  (dropTrailingDash s = s ∧ last s ≠ Some 45%N)
  ∨ (s = dropTrailingDash s ++ [45%N]).
Proof.
  unfold dropTrailingDash. destruct (reverse s) as [|c r] eqn:Hr.
  - left. apply (f_equal reverse) in Hr. rewrite reverse_involutive in Hr.
    by subst s.
  - apply (f_equal reverse) in Hr.
    rewrite reverse_involutive, reverse_cons in Hr. subst s.
    destruct (decide (c = 45%N)) as [->|Hc].
    + by right.
    + left. rewrite last_snoc.
      assert ((match c with 45%N => reverse r | _ => reverse r ++ [c] end)
              = reverse r ++ [c]) as ->; [|split; congruence].
      destruct c as [|p]; [done|].
      repeat (destruct p as [p|p|]; try done).
Qed.

Lemma stripEnds_shape s :
  ¬ occursIn [45; 45]%N s →
  (∃ l1 l2, s = l1 ++ stripEnds s ++ l2)
  ∧ head (stripEnds s) ≠ Some 45%N
  ∧ last (stripEnds s) ≠ Some 45%N.
Proof.
  intros Hdd. unfold stripEnds.
  assert (∀ r : jsstring, ¬ occursIn [45; 45]%N r → head r ≠ Some 45%N →
            (∃ l2, r = dropTrailingDash r ++ l2)
            ∧ head (dropTrailingDash r) ≠ Some 45%N
            ∧ last (dropTrailingDash r) ≠ Some 45%N) as Haux.
  { intros r Hr Hh. destruct (dropTrailingDash_cases r) as [[-> Hl]|Hsnoc].
    - split; [exists []; by rewrite app_nil_r | done].
    - split; [by eexists|]. set (r' := dropTrailingDash r) in *.
      split.
      + destruct r' as [|x r']; [done|]. rewrite Hsnoc in Hh. done.
      + intros Hl. apply Hr. rewrite Hsnoc.
        destruct r' as [|x r'] using rev_ind; [done|].
        rewrite last_snoc in Hl. injection Hl as ->.
        exists r', []. by rewrite <- app_assoc. }
  destruct s as [|c r]; [by split; [exists [], []|]|].
  destruct (decide (c = 45%N)) as [->|Hc].
  - rewrite occursIn_dashes_cons in Hdd.
    destruct (Haux r) as ([l2 Hl2] & Hh & Hl); [tauto | tauto |].
    split; [|done]. exists [45%N], l2. simpl. by rewrite <- Hl2.
  - assert (stripEnds_c : (match c with
                           | 45%N => dropTrailingDash r
                           | _ => dropTrailingDash (c :: r)
                           end) = dropTrailingDash (c :: r)).
    { destruct c as [|p]; [done|]. repeat (destruct p as [p|p|]; try done). }
    rewrite stripEnds_c.
    destruct (Haux (c :: r)) as ([l2 Hl2] & Hh & Hl);
      [done | simpl; congruence |].
    split; [|done]. exists [], l2. simpl. by rewrite <- Hl2.
Qed.

Lemma occursIn_infix (t s l1 l2 : jsstring) :
  occursIn t s → occursIn t (l1 ++ s ++ l2).
Proof.
  intros (k1 & k2 & ->). exists (l1 ++ k1), (k2 ++ l2).
  by rewrite <- !app_assoc.
Qed.

(** X13: whatever the title, the title part of the file name holds only
    the code units [a-z], [0-9] and dashes, is at most 50 long, does not
    start with a dash and has no two dashes in a row; it does not end with
    a dash either unless the cut at 50 made it so. *)
Theorem safeTitle_shape (lowerCase : jsstring → jsstring) (title : jsstring) :
  Forall (λ c, isFileChar c = true ∨ c = 45%N) (safeTitle lowerCase title)
  ∧ length (safeTitle lowerCase title) ≤ 50
  ∧ head (safeTitle lowerCase title) ≠ Some 45%N
  ∧ ¬ occursIn [45; 45]%N (safeTitle lowerCase title)
  ∧ (length (stripEnds (dashRuns false (lowerCase title))) ≤ 50 →
     last (safeTitle lowerCase title) ≠ Some 45%N).
Proof.
  unfold safeTitle, substring0.
  destruct (dashRuns_shape false (lowerCase title)) as (Hf & Hd & _).
  destruct (stripEnds_shape _ Hd) as ((l1 & l2 & Hin) & Hh & Hl).
  set (d := dashRuns false (lowerCase title)) in *.
  set (t := stripEnds d) in *.
  assert (Forall (λ c, isFileChar c = true ∨ c = 45%N) t) as Ht.
  { rewrite Hin in Hf. apply Forall_app in Hf as [_ Hf].
    by apply Forall_app in Hf as [Hf _]. }
  assert (¬ occursIn [45; 45]%N t) as Hdt.
  { intros Ho. apply Hd. rewrite Hin. by apply occursIn_infix. }
  split; [by apply Forall_take|]. split; [rewrite length_take; lia|].
  split; [by destruct t|]. split.
  - intros Ho. apply Hdt. rewrite <- (take_drop 50 t).
    apply (occursIn_infix _ _ [] (drop 50 t)) in Ho. by rewrite app_nil_l in Ho.
  - intros Hlen. by rewrite take_ge.
Qed.

Lemma dashRuns_no_file_char s :
  Forall (λ c, isFileChar c = false) s →
  dashRuns true s = [] ∧ stripEnds (dashRuns false s) = [].
Proof.
  induction 1 as [|c s Hc Hs [IH1 IH2]]; [done|].
  cbn [dashRuns]. rewrite Hc, IH1. done.
Qed.

(** X14: a title in which lower-casing leaves no letter a-z and no digit
    (a title in another script, or of punctuation only, or empty) gives
    the file name ["gemini--"], the date, [".md"]. *)
Theorem generateFilename_without_file_chars
    (lowerCase : jsstring → jsstring) (title date : jsstring) :
  Forall (λ c, isFileChar c = false) (lowerCase title) →
  generateFilename lowerCase title date = js "gemini--" ++ date ++ js ".md".
Proof.
  intros H. unfold generateFilename, safeTitle.
  by rewrite (proj2 (dashRuns_no_file_char _ H)).
Qed.

Lemma generateFilename_without_file_chars_witness :
  Forall (λ c, isFileChar c = false) (toLowerCase [0x4F60; 0x597D]%N)
  ∧ generateFilename toLowerCase [0x4F60; 0x597D]%N (js "2024-01-15")
    = js "gemini--" ++ js "2024-01-15" ++ js ".md".
Proof.
  assert (H : Forall (λ c, isFileChar c = false) (toLowerCase [0x4F60; 0x597D]%N))
    by (repeat constructor).
  exact (conj H (generateFilename_without_file_chars toLowerCase
                   [0x4F60; 0x597D]%N (js "2024-01-15") H)).
Defined.

Lemma dashRuns_file_prefix (a s : jsstring) :
  Forall (λ c, isFileChar c = true) a →
  dashRuns false (a ++ s) = a ++ dashRuns false s.
Proof.
  induction 1 as [|c a Hc Ha IH]; [done|].
  simpl. by rewrite Hc, IH.
Qed.

Lemma stripEnds_not_dash c r :
  c ≠ 45%N → stripEnds (c :: r) = dropTrailingDash (c :: r).
Proof.
  intros Hc. unfold stripEnds. destruct c as [|p]; [done|].
  repeat (destruct p as [p|p|]; try done).
Qed.

Lemma take_dropTrailingDash n s :
  n < length s → take n (dropTrailingDash s) = take n s.
Proof.
  intros Hn. destruct (dropTrailingDash_cases s) as [[-> _]|Hs]; [done|].
  rewrite Hs at 2. rewrite take_app_le; [done|].
  rewrite Hs, length_app in Hn. simpl in Hn. lia.
Qed.

(** X15: the cut at 50 comes after the dashes at the ends are removed, so
    it can leave one: when the lower-cased title starts with 49 code units
    of [a-z0-9] followed by another code unit and then one of [a-z0-9],
    the title part is those 49 and a dash, and the file name has two
    dashes before the date. *)
Theorem safeTitle_cut_can_end_with_dash
    (lowerCase : jsstring → jsstring) (title date a rest : jsstring) (u c : N) :
  lowerCase title = a ++ u :: c :: rest →
  Forall (λ x, isFileChar x = true) a → length a = 49 →
  isFileChar u = false → isFileChar c = true →
  safeTitle lowerCase title = a ++ [45%N]
  ∧ generateFilename lowerCase title date
    = js "gemini-" ++ a ++ js "--" ++ date ++ js ".md".
Proof.
  intros Hlow Ha Hlen Hu Hc.
  assert (safeTitle lowerCase title = a ++ [45%N]) as Hsafe.
  { unfold safeTitle, substring0. rewrite Hlow, dashRuns_file_prefix by done.
    cbn [dashRuns]. rewrite Hu, Hc.
    destruct a as [|x a]; [done|]. inversion Ha as [|? ? Hx _]; subst.
    rewrite <- app_comm_cons, stripEnds_not_dash by by apply isFileChar_not_dash.
    rewrite app_comm_cons, take_dropTrailingDash
      by (rewrite length_app; simpl in *; lia).
    rewrite take_app_ge by lia. by rewrite Hlen. }
  split; [done|]. unfold generateFilename. rewrite Hsafe.
  by rewrite <- !app_assoc.
Qed.

Lemma safeTitle_cut_can_end_with_dash_witness :
  let a := replicate 49 97%N in
  let title := a ++ [32; 98]%N in
  (λ s : jsstring, s) title = a ++ 32%N :: 98%N :: []
  ∧ safeTitle (λ s, s) title = a ++ [45%N].
Proof.
  intros a title. split; [reflexivity|].
  refine (proj1 (safeTitle_cut_can_end_with_dash (λ s, s) title [] a [] 32 98
                   eq_refl _ _ _ _)); try reflexivity.
  repeat constructor.
Defined.

(** ** The chat title *)

Lemma titleFromSelectors_spec accept found text :
  titleFromSelectors accept found = Some text →
  text ≠ [] ∧ length text < 200 ∧ trim text = text ∧ accept text = true
  ∧ ∃ textContent, Some textContent ∈ found ∧ text = trim textContent.
Proof.
  induction found as [|[textContent|] found IH]; simpl; [done| |].
  - destruct (truthy (trim textContent)
              && (length (trim textContent) <? 200)
              && accept (trim textContent)) eqn:Hok.
    + apply andb_true_iff in Hok as [[Ht Hl]%andb_true_iff Ha].
      intros [= <-]. split; [by destruct (trim textContent)|].
      split; [by apply Nat.ltb_lt|]. split; [apply trim_idempotent|].
      split; [done|]. exists textContent. split; [by left | done].
    + intros H. destruct (IH H) as (? & ? & ? & ? & tc & ? & ?).
      repeat split; try done. exists tc. split; [by right | done].
  - intros H. destruct (IH H) as (? & ? & ? & ? & tc & ? & ?).
    repeat split; try done. exists tc. split; [by right | done].
Qed.

Lemma titleFromSelectors_none accept found :
  (∀ textContent, Some textContent ∈ found → accept (trim textContent) = false) →
  titleFromSelectors accept found = None.
Proof.
  induction found as [|[textContent|] found IH]; intros Hall; simpl; [done| |].
  - rewrite (Hall textContent) by (by left). rewrite !andb_false_r.
    apply IH. intros tc Htc. apply Hall. by right.
  - apply IH. intros tc Htc. apply Hall. by right.
Qed.

Lemma titleFromSelectors_None accept found :
  titleFromSelectors accept found = None →
  ∀ textContent, Some textContent ∈ found →
    truthy (trim textContent) && (length (trim textContent) <? 200)
    && accept (trim textContent) = false.
Proof.
  induction found as [|[tc|] found IH]; simpl; intros Hnone textContent Hin.
  - by apply elem_of_nil in Hin.
  - destruct (truthy (trim tc) && (length (trim tc) <? 200) && accept (trim tc))
      eqn:Hok; [done|].
    apply elem_of_cons in Hin as [[= ->]|Hin]; [done | by apply IH].
  - apply elem_of_cons in Hin as [[=]|Hin]. by apply IH.
Qed.

(** The title, by the case the function returns in. *)
Lemma getChatTitleWith_char lowerCase accept (ok : jsstring → Prop)
    found pageTitle :
  (∀ text, truthy text && (length text <? 200) && accept text = true
           ↔ ok text) →
  let title := getChatTitleWith lowerCase accept found pageTitle in
  title ≠ []
  ∧ ((∃ textContent, Some textContent ∈ found ∧ title = trim textContent
                     ∧ ok (trim textContent))
     ∨ ((∀ textContent, Some textContent ∈ found → ¬ ok (trim textContent))
        ∧ ((title = pageTitle ∧ pageTitle ≠ []
            ∧ ¬ occursIn (js "gemini") (lowerCase pageTitle))
           ∨ (title = defaultTitle
              ∧ (pageTitle = []
                 ∨ occursIn (js "gemini") (lowerCase pageTitle)))))).
Proof.
  intros Hok. unfold getChatTitleWith.
  destruct (titleFromSelectors accept found) as [text|] eqn:Hsel.
  - destruct (titleFromSelectors_spec accept found text Hsel)
      as (Hne & Hlen & _ & Hacc & tc & Hin & ->).
    split; [done|]. left. exists tc. split; [done|]. split; [done|].
    apply Hok. rewrite Hacc, (proj2 (Nat.ltb_lt _ _) Hlen).
    by destruct (trim tc).
  - assert (∀ textContent, Some textContent ∈ found → ¬ ok (trim textContent))
      as Hnone.
    { intros tc Hin Htc%Hok.
      by rewrite (titleFromSelectors_None accept found Hsel tc Hin) in Htc. }
    destruct (truthy pageTitle) eqn:Hp; cbn [andb].
    + destruct (includes (lowerCase pageTitle) (js "gemini")) eqn:Hg; cbn [negb].
      * split; [done|]. right. split; [done|]. right. split; [done|].
        right. by apply includes_spec.
      * split; [by destruct pageTitle|]. right. split; [done|]. left.
        split; [done|]. split; [by destruct pageTitle|].
        intros Ho%includes_spec. congruence.
    + split; [done|]. right. split; [done|]. right. split; [done|].
      left. by destruct pageTitle.
Qed.

Lemma titleText_test lowerCase (lenient : bool) text :
  truthy text && (length text <? 200)
  && (negb (includes (lowerCase text) (js "gemini"))
      || (lenient && (10 <? length text))) = true
  ↔ titleText lowerCase lenient text.
Proof.
  unfold titleText.
  rewrite !andb_true_iff, orb_true_iff, andb_true_iff, negb_true_iff,
    !Nat.ltb_lt.
  assert (truthy text = true ↔ text ≠ []) as -> by (by destruct text).
  assert (includes (lowerCase text) (js "gemini") = false
          ↔ ¬ occursIn (js "gemini") (lowerCase text)) as ->.
  { rewrite <- includes_spec. by destruct (includes _ _). }
  naive_solver.
Qed.

(** X16: the chat title of either revision is never empty, and it is
    decided in this order.  It is the trimmed text of a selector match
    that is not empty, is shorter than 200 and does not contain [gemini]
    once lower-cased (revision 1 also takes such a text when it is longer
    than 10); when there is no such match it is the page title if that is
    not empty and does not contain [gemini]; and it is the default title
    when the page title fails that test as well. *)
Theorem chat_title_is_never_empty_nor_generic
    (lowerCase : jsstring → jsstring) (found : list (option jsstring))
    (pageTitle : jsstring) (lenient : bool) :
  let title := if lenient then getChatTitle1 lowerCase found pageTitle
               else getChatTitle2 lowerCase found pageTitle in
  title ≠ []
  ∧ ((∃ textContent, Some textContent ∈ found ∧ title = trim textContent
                     ∧ titleText lowerCase lenient (trim textContent))
     ∨ ((∀ textContent, Some textContent ∈ found →
           ¬ titleText lowerCase lenient (trim textContent))
        ∧ ((title = pageTitle ∧ pageTitle ≠ []
            ∧ ¬ occursIn (js "gemini") (lowerCase pageTitle))
           ∨ (title = defaultTitle
              ∧ (pageTitle = []
                 ∨ occursIn (js "gemini") (lowerCase pageTitle)))))).
Proof.
  destruct lenient; cbv zeta; unfold getChatTitle1, getChatTitle2;
    apply getChatTitleWith_char; intros text.
  - rewrite <- (titleText_test lowerCase true text). by rewrite andb_true_l.
  - rewrite <- (titleText_test lowerCase false text).
    by rewrite andb_false_l, orb_false_r.
Qed.

(** X17: selector texts that read [gemini] when lower-cased and are at
    most 10 long (the bare product name, say) are passed over by both
    revisions, and so is a page title that contains [gemini] or is empty:
    the title is then the default one. *)
Theorem generic_titles_fall_back_to_default
    (lowerCase : jsstring → jsstring) (found : list (option jsstring))
    (pageTitle : jsstring) :
  (∀ textContent, Some textContent ∈ found →
     occursIn (js "gemini") (lowerCase (trim textContent))
     ∧ length (trim textContent) ≤ 10) →
  pageTitle = [] ∨ occursIn (js "gemini") (lowerCase pageTitle) →
  getChatTitle1 lowerCase found pageTitle = defaultTitle
  ∧ getChatTitle2 lowerCase found pageTitle = defaultTitle.
Proof.
  intros Hfound Hpage.
  assert (truthy pageTitle
          && negb (includes (lowerCase pageTitle) (js "gemini")) = false) as Hp.
  { destruct Hpage as [->|Ho]; [done|].
    apply includes_spec in Ho. rewrite Ho. apply andb_false_r. }
  unfold getChatTitle1, getChatTitle2, getChatTitleWith.
  rewrite !titleFromSelectors_none, Hp; [done| |].
  - intros tc [Ho _]%Hfound. apply includes_spec in Ho. by rewrite Ho.
  - intros tc [Ho Hl]%Hfound. apply includes_spec in Ho. rewrite Ho. simpl.
    apply Nat.ltb_ge. lia.
Qed.

Lemma generic_titles_fall_back_to_default_witness :
  (∀ textContent, Some textContent ∈ [Some (js " Gemini ")] →
     occursIn (js "gemini") (toLowerCase (trim textContent))
     ∧ length (trim textContent) ≤ 10)
  ∧ (js "Google Gemini" = [] ∨ occursIn (js "gemini") (toLowerCase (js "Google Gemini")))
  ∧ getChatTitle1 toLowerCase [Some (js " Gemini ")] (js "Google Gemini")
    = defaultTitle
  ∧ getChatTitle2 toLowerCase [Some (js " Gemini ")] (js "Google Gemini")
    = defaultTitle.
Proof.
  assert (H1 : ∀ textContent, Some textContent ∈ [Some (js " Gemini ")] →
     occursIn (js "gemini") (toLowerCase (trim textContent))
     ∧ length (trim textContent) ≤ 10).
  { intros tc Htc. apply list_elem_of_singleton in Htc. injection Htc as ->.
    split; [by exists [], [] | vm_compute; lia]. }
  assert (H2 : js "Google Gemini" = []
               ∨ occursIn (js "gemini") (toLowerCase (js "Google Gemini")))
    by (right; by exists (js "google "), []).
  exact (conj H1 (conj H2 (generic_titles_fall_back_to_default toLowerCase
                             [Some (js " Gemini ")] (js "Google Gemini") H1 H2))).
Defined.

(** ** The timestamp search *)

Lemma firstHit_Some {A B} (look : A → option B) l y :
  firstHit look l = Some y → ∃ x, x ∈ l ∧ look x = Some y.
Proof.
  induction l as [|x l IH]; simpl; [done|].
  destruct (look x) as [z|] eqn:Hx.
  - intros [= ->]. exists x. split; [by left | done].
  - intros (x' & ? & ?)%IH. exists x'. split; [by right | done].
Qed.

Lemma firstHit_None {A B} (look : A → option B) l :
  firstHit look l = None ↔ ∀ x, x ∈ l → look x = None.
Proof.
  induction l as [|x l IH]; simpl.
  - split; [by intros _ x ?%elem_of_nil | done].
  - destruct (look x) as [z|] eqn:Hx.
    + split; [done|]. intros H. specialize (H x ltac:(by left)). congruence.
    + rewrite IH. split.
      * intros H x' [->|?]%elem_of_cons; auto.
      * intros H x' Hx'. apply H. by right.
Qed.

Lemma truthyAttr_Some attr node value :
  truthyAttr attr node = Some value → value ≠ [].
Proof.
  unfold truthyAttr. destruct (node !! attr) as [v|]; [|done].
  destruct v; [done|]. by intros [= <-].
Qed.

Lemma formatTimestamp_nonempty toLocaleString dateParse value :
  (∀ t, toLocaleString t ≠ []) → value ≠ [] →
  formatTimestamp toLocaleString dateParse value ≠ [].
Proof.
  intros Hhost Hv. unfold formatTimestamp.
  destruct (parseInt10 value) as [num|]; [destruct (validTime _); [done|]|];
    by destruct (dateParse value).
Qed.

(** X18: as long as the host's [toLocaleString] never returns an empty
    string, [extractTimestamp] returns [null] or a non-empty string, never
    an empty one. *)
Theorem extractTimestamp_never_empty
    (toLocaleString : Z → jsstring) (dateParse : jsstring → option Z)
    (site : TimestampSite) :
  (∀ t, toLocaleString t ≠ []) →
  extractTimestamp toLocaleString dateParse site ≠ Some [].
Proof.
  intros Hhost. unfold extractTimestamp.
  assert ((match ariaTime site with
           | Some label =>
               if truthy label && clockPattern label then Some label else None
           | None => None
           end) ≠ Some []) as Haria.
  { destruct (ariaTime site) as [[|c label]|]; [done| |done].
    destruct (truthy _ && _); done. }
  destruct (firstHit (attrOnPath site) timestampAttrs) as [value|] eqn:Hattr.
  - intros [= H]. revert H. apply formatTimestamp_nonempty; [done|].
    apply firstHit_Some in Hattr as (attr & _ & Hpath).
    apply firstHit_Some in Hpath as (node & _ & Hnode).
    by eapply truthyAttr_Some.
  - destruct (timeEl site) as [[datetimeAttr textContent]|]; [|done].
    destruct (truthy _) eqn:Ht; [|done].
    intros [= H]. revert H. apply formatTimestamp_nonempty; [done|].
    intros Hd. by rewrite Hd in Ht.
Qed.

Lemma extractTimestamp_never_empty_witness :
  (∀ t : Z, (λ _ : Z, js "1/15/2024, 10:30:00 AM") t ≠ [])
  ∧ extractTimestamp (λ _, js "1/15/2024, 10:30:00 AM") (λ _, None)
      (mkTimestampSite {[js "data-time" := js "1705314600"]} [] None None)
    ≠ Some [].
Proof.
  assert (H : ∀ t : Z, (λ _ : Z, js "1/15/2024, 10:30:00 AM") t ≠ []) by done.
  exact (conj H (extractTimestamp_never_empty _ (λ _, None)
    (mkTimestampSite {[js "data-time" := js "1705314600"]} [] None None) H)).
Defined.

(** X19: [extractTimestamp] returns [null] exactly when none of the six
    timestamp attributes has a non-empty value on the element or on one of
    its first five ancestors (further ancestors are not looked at), the
    time-like descendant, if any, has neither a non-empty [datetime] nor a
    text that survives trimming, and the [aria-label] found, if any, has
    no digit, colon, two digits in a row. *)
Theorem extractTimestamp_null_iff
    (toLocaleString : Z → jsstring) (dateParse : jsstring → option Z)
    (site : TimestampSite) :
  extractTimestamp toLocaleString dateParse site = None
  ↔ (∀ attr node, attr ∈ timestampAttrs →
       node ∈ ownAttrs site :: take 5 (ancestorAttrs site) →
       truthyAttr attr node = None)
    ∧ match timeEl site with
      | Some (datetimeAttr, textContent) =>
          orElse datetimeAttr None = None ∧ trim textContent = []
      | None => True
      end
    ∧ match ariaTime site with
      | Some label => clockPattern label = false
      | None => True
      end.
Proof.
  unfold extractTimestamp.
  assert (firstHit (attrOnPath site) timestampAttrs = None
          ↔ ∀ attr node, attr ∈ timestampAttrs →
              node ∈ ownAttrs site :: take 5 (ancestorAttrs site) →
              truthyAttr attr node = None) as Hattrs.
  { rewrite firstHit_None. unfold attrOnPath.
    split.
    - intros H attr node Hattr Hnode.
      by apply (proj1 (firstHit_None _ _) (H attr Hattr)).
    - intros H attr Hattr. apply firstHit_None. intros node. by apply H. }
  assert ((match ariaTime site with
           | Some label =>
               if truthy label && clockPattern label then Some label else None
           | None => None
           end) = None
          ↔ match ariaTime site with
            | Some label => clockPattern label = false
            | None => True
            end) as Haria.
  { destruct (ariaTime site) as [[|c label]|]; [done| |done].
    simpl truthy. cbn [andb]. by destruct (clockPattern (c :: label)). }
  destruct (firstHit (attrOnPath site) timestampAttrs) as [value|] eqn:Hhit.
  - split; [done|]. intros [H _]. apply Hattrs in H. done.
  - destruct (timeEl site) as [[datetimeAttr textContent]|].
    + destruct (orElse datetimeAttr None) as [d|] eqn:Hd.
      * assert (truthy d = true) as ->.
        { unfold orElse in Hd. destruct datetimeAttr as [s|]; [|done].
          destruct (truthy s) eqn:Hs; [|done]. by injection Hd as <-. }
        split; [done|]. by intros (_ & [? _] & _).
      * destruct (trim textContent) as [|c t] eqn:Htrim; simpl truthy; cbv iota.
        -- rewrite Haria. split; [intros; split; [by apply Hattrs | done]|].
           by intros (_ & _ & ?).
        -- split; [done|]. by intros (_ & [_ ?] & _).
    + rewrite Haria. split; [intros; split; [by apply Hattrs | done]|].
      by intros (_ & _ & ?).
Qed.

Lemma digitsValue_stop (ds rest : jsstring) (c : N) acc :
  Forall (λ d, isDigit d = true) ds → isDigit c = false →
  digitsValue acc (ds ++ c :: rest) = digitsValue acc ds.
Proof.
  intros Hds Hc. revert acc. induction Hds as [|d ds Hd Hds IH]; intros acc.
  - simpl. by rewrite Hc.
  - simpl. by rewrite Hd, IH.
Qed.

Lemma parseInt10_digit_prefix (ds rest : jsstring) (c : N) :
  Forall (λ d, isDigit d = true) ds → ds ≠ [] → isDigit c = false →
  parseInt10 (ds ++ c :: rest) = Some (digitsValue 0 ds).
Proof.
  intros Hds Hne Hc. destruct ds as [|d ds]; [done|].
  inversion Hds as [|? ? Hd Hrest]; subst.
  rewrite <- (digitsValue_stop (d :: ds) rest c 0 Hds Hc).
  unfold parseInt10. rewrite <- app_comm_cons. cbn [trimStart].
  rewrite (isDigit_not_space d Hd).
  pose proof (proj1 (isDigit_bounds d) Hd) as Hb.
  destruct d as [|p]; [lia|].
  repeat (destruct p as [p|p|]; try (exfalso; lia); try done);
    rewrite ?Hd; f_equal; lia.
Qed.

(** X20: what follows the leading digits is not looked at.  A value that
    starts with one to ten decimal digits followed by any other code unit
    (a date such as ["2024-01-15T10:30:00Z"], say) is rendered as that
    many seconds after the epoch, and the date-string parse is not
    consulted. *)
Theorem formatTimestamp_reads_leading_digits
    (toLocaleString : Z → jsstring) (dateParse : jsstring → option Z)
    (ds rest : jsstring) (c : N) :
  Forall (λ d, isDigit d = true) ds → 1 ≤ length ds ≤ 10 →
  isDigit c = false →
  formatTimestamp toLocaleString dateParse (ds ++ c :: rest)
  = toLocaleString (digitsValue 0 ds * 1000)%Z.
Proof.
  intros Hds Hlen Hc.
  destruct (digitsValue_digits ds 0 Hds) as [[Hlo Hhi] _].
  assert (10 ^ Z.of_nat (length ds) <= 10 ^ 10)%Z
    by (apply Z.pow_le_mono_r; lia).
  change (10 ^ 10)%Z with 10000000000%Z in *.
  rewrite (formatTimestamp_integer_prefix _ _ _ (digitsValue 0 ds)).
  - by replace (digitsValue 0 ds >? 9999999999)%Z with false by lia.
  - apply parseInt10_digit_prefix; [done| |done].
    destruct ds; simpl in *; [lia | done].
  - replace (digitsValue 0 ds >? 9999999999)%Z with false by lia.
    unfold validTime. lia.
Qed.

Lemma formatTimestamp_reads_leading_digits_witness :
  Forall (λ d, isDigit d = true) (js "2024") ∧ 1 ≤ length (js "2024") ≤ 10
  ∧ isDigit 45 = false
  ∧ formatTimestamp (λ t, js "t") (λ _, Some 1705314600000%Z)
      (js "2024" ++ 45%N :: js "01-15T10:30:00Z")
    = (λ t : Z, js "t") (digitsValue 0 (js "2024") * 1000)%Z.
Proof.
  assert (H : Forall (λ d, isDigit d = true) (js "2024")) by (repeat constructor).
  assert (Hlen : 1 ≤ length (js "2024") ≤ 10) by (simpl; lia).
  exact (conj H (conj Hlen (conj eq_refl
    (formatTimestamp_reads_leading_digits (λ t, js "t")
       (λ _, Some 1705314600000%Z) (js "2024") (js "01-15T10:30:00Z") 45
       H Hlen eq_refl)))).
Defined.

(** X22: scrolling up with [prepend] keeps the order.  When the
    accumulator holds [common ++ newer] with a seen-set that is exactly the
    set of their fingerprints, and the document shows [older ++ common],
    all with pairwise distinct fingerprints, the pass of revision 2 leaves
    [older ++ common ++ newer]. *)
Theorem prepending_an_older_window_keeps_order
    (a : Acc) (doc : V2.Doc) (older common newer : list Message) :
  seenContent a = list_to_set (fingerprint <$> messages a) →
  messages a = common ++ newer →
  candidates2 doc = older ++ common →
  NoDup (fingerprint <$> (older ++ common ++ newer)) →
  messages (V2.extractVisibleMessages doc true a) = older ++ common ++ newer.
Proof.
  intros Hseen Ha Hdoc Hnd.
  rewrite extractVisibleMessages2_absorb. simpl. rewrite drop_app_length.
  rewrite Hdoc, Ha, Hseen, Ha. f_equal.
  rewrite !fmap_app in Hnd. apply NoDup_app in Hnd as (Ho & Hdisj & Hcn).
  rewrite dedupe_from_app, dedupe_from_id, dedupe_from_seen_all, app_nil_r.
  - done.
  - intros m Hm. apply elem_of_union_l, elem_of_list_to_set.
    rewrite fmap_app. apply elem_of_app. left. by apply list_elem_of_fmap_2.
  - done.
  - intros m Hm Hin. apply elem_of_list_to_set in Hin.
    rewrite fmap_app in Hin. eapply Hdisj; [|exact Hin].
    by apply list_elem_of_fmap_2.
Qed.

Lemma prepending_an_older_window_keeps_order_witness :
  let q1 := mkElement (classString []) None None (js "first question") in
  let a1 := mkElement (classString []) None None (js "first answer") in
  let q2 := mkElement (classString []) None None (js "second question") in
  let bottom := [V2.mkLocated V2.MODEL_RESPONSE a1; V2.mkLocated V2.USER_QUERY q2] in
  let above := [V2.mkLocated V2.USER_QUERY q1; V2.mkLocated V2.MODEL_RESPONSE a1] in
  let a := V2.extractVisibleMessages bottom false emptyAcc in
  seenContent a = list_to_set (fingerprint <$> messages a)
  ∧ messages (V2.extractVisibleMessages above true a)
  = [mkMessage user (js "first question") None;
     mkMessage assistant (js "first answer") None;
     mkMessage user (js "second question") None].
Proof.
  intros q1 a1 q2 bottom above a.
  assert (Hseen : seenContent a = list_to_set (fingerprint <$> messages a)).
  { apply reachable_AccExact. right. apply reach2_pass, reach2_init. }
  split; [exact Hseen|].
  refine (prepending_an_older_window_keeps_order a above
            [mkMessage user (js "first question") None]
            [mkMessage assistant (js "first answer") None]
            [mkMessage user (js "second question") None] Hseen _ _ _).
  - vm_compute. reflexivity.
  - vm_compute. reflexivity.
  - vm_compute. repeat constructor; set_solver.
Defined.

(** ** The time a driver spends waiting *)

Section LoopClock.
Context {View Doc : Type} (ops : ViewOps View Doc).
Variable extractPass : Doc → Acc → Acc.
Variables (adaptiveMax : nat) (adaptiveDelay scrollStep : Z).
Hypothesis delay_pos : (0 <= adaptiveDelay)%Z.

(** The run on the view with a clock is the run on the view, and its
    clock advanced by at most the waits of the loop. *)
Lemma adaptiveWait_timed budget v t a h :
  let r := adaptiveWait ops extractPass adaptiveDelay budget v a h in
  let r' := adaptiveWait (timed ops) extractPass adaptiveDelay budget (v, t) a h in
  r'.1.1.1 = r.1.1 ∧ r'.1.2 = r.1.2 ∧ r'.2 = r.2
  ∧ (t <= r'.1.1.2 <= t + Z.of_nat budget * adaptiveDelay)%Z.
Proof.
  revert v t a h. induction budget as [|b IH]; intros v t a h; cbn zeta.
  - simpl. repeat split; lia.
  - cbn [adaptiveWait]. cbn [timed sleep document getScrollHeight fst snd].
    destruct (_ && _).
    + cbn [fst snd]. repeat split; try done; nia.
    + destruct (IH (sleep ops adaptiveDelay v) (t + adaptiveDelay)%Z
                  (extractPass (document ops (sleep ops adaptiveDelay v)) a)
                  (getScrollHeight ops (sleep ops adaptiveDelay v)))
        as (H1 & H2 & H3 & H4).
      cbn zeta in *. repeat split; try done; nia.
Qed.

Lemma iteration_timed v t a stuck count adv :
  let r := iteration ops extractPass adaptiveMax adaptiveDelay scrollStep
                     (mkLoop v a stuck count adv) in
  let r' := iteration (timed ops) extractPass adaptiveMax adaptiveDelay scrollStep
                      (mkLoop (v, t) a stuck count adv) in
  ∃ t', r'.1 = mkLoop (view r.1, t') (acc r.1) (stuckCount r.1)
                      (scrollCount r.1) (advances r.1)
        ∧ r'.2 = r.2
        ∧ (t <= t' <= t + 50 + Z.of_nat adaptiveMax * adaptiveDelay)%Z.
Proof.
  cbn zeta. unfold iteration.
  cbn [timed sleep scrollBy document getScrollHeight getScrollTop view acc
       stuckCount scrollCount advances fst snd].
  set (v1 := sleep ops 50 (scrollBy ops (- scrollStep) v)).
  destruct (adaptiveWait_timed adaptiveMax v1 (t + 50)%Z
              (extractPass (document ops v1) a) (getScrollHeight ops v1))
    as (H1 & H2 & H3 & H4). cbn zeta in *.
  destruct (adaptiveWait ops _ _ _ _ _ _) as [[v2 a2] h2].
  destruct (adaptiveWait (timed ops) _ _ _ _ _ _) as [[[v2' t2] a2'] h2'].
  cbn [fst snd] in *. subst v2' a2' h2'. exists t2.
  repeat (destruct (_ : bool); cbn [fst snd view acc stuckCount scrollCount
                                   advances]);
    repeat split; try done; lia.
Qed.

Lemma scrollLoop_timed remaining v t a stuck count adv :
  let r := scrollLoop ops extractPass adaptiveMax adaptiveDelay scrollStep
                      remaining (mkLoop v a stuck count adv) in
  let r' := scrollLoop (timed ops) extractPass adaptiveMax adaptiveDelay
                       scrollStep remaining (mkLoop (v, t) a stuck count adv) in
  ∃ t', r'.1 = mkLoop (view r.1, t') (acc r.1) (stuckCount r.1)
                      (scrollCount r.1) (advances r.1)
        ∧ r'.2 = r.2
        ∧ (t <= t' <= t + Z.of_nat remaining
                          * (50 + Z.of_nat adaptiveMax * adaptiveDelay))%Z.
Proof.
  revert v t a stuck count adv.
  induction remaining as [|n IH]; intros v t a stuck count adv; cbn zeta.
  - simpl. exists t. repeat split; lia.
  - cbn [scrollLoop].
    destruct (iteration_timed v t a stuck count adv) as (t1 & Hst & He & Ht).
    cbn zeta in *.
    destruct (iteration ops _ _ _ _ _) as [st e].
    destruct (iteration (timed ops) _ _ _ _ _) as [st' e'].
    cbn [fst snd] in *. subst st' e'. destruct e as [e|].
    + exists t1. repeat split; try done; nia.
    + destruct st as [v1 a1 s1 c1 d1]. cbn [view acc stuckCount scrollCount
                                            advances] in *.
      destruct (IH v1 t1 a1 s1 c1 d1) as (t2 & Hst2 & He2 & Ht2).
      cbn zeta in *. exists t2. repeat split; try done; nia.
Qed.
End LoopClock.

(** X21: whatever the view does, the drivers wait a bounded time: at most
    100 seconds in revision 1 and 213.5 seconds in revision 2.  The run on
    the view with a clock accumulates the same messages and leaves the
    loop the same way as the run on the view itself. *)
Theorem total_wait_is_bounded {View}
    (ops1 : ViewOps View V1.Doc) (ops2 : ViewOps View V2.Doc)
    (share : Z → Z) (v : View) (a : Acc) :
  (let plain := V1.autoScrollConversation ops1 share v a in
   let clocked := V1.autoScrollConversation (timed ops1) share (v, 0%Z) a in
   acc clocked.1 = acc plain.1 ∧ clocked.2 = plain.2
   ∧ (0 <= snd (view clocked.1) <= 100000)%Z)
  ∧ (let plain := V2.autoScrollConversation ops2 share v a in
     let clocked := V2.autoScrollConversation (timed ops2) share (v, 0%Z) a in
     acc clocked.1 = acc plain.1 ∧ clocked.2 = plain.2
     ∧ (1000 <= snd (view clocked.1) <= 213500)%Z).
Proof.
  split; cbn zeta.
  - unfold V1.autoScrollConversation.
    cbn [timed document getClientHeight fst snd].
    match goal with |- context [scrollLoop ops1 ?e ?m ?d ?s ?n (mkLoop ?v0 ?a0 0 0 0)] =>
      destruct (scrollLoop_timed ops1 e m d s ltac:(lia) n v0 0%Z a0 0 0 0)
        as (t' & Hst & He & Ht) end.
    cbn zeta in *.
    destruct (scrollLoop ops1 _ _ _ _ _ _) as [st e].
    destruct (scrollLoop (timed ops1) _ _ _ _ _ _) as [st' e'].
    cbn [fst snd] in *. subst st' e'. cbn [view acc fst snd].
    unfold maxScrolls in Ht. repeat split; try done; lia.
  - unfold V2.autoScrollConversation.
    cbn [timed document getClientHeight getScrollHeight setScrollTop sleep
         fst snd].
    match goal with |- context [scrollLoop ops2 ?e ?m ?d ?s ?n (mkLoop ?v0 ?a0 0 0 0)] =>
      destruct (scrollLoop_timed ops2 e m d s ltac:(lia) n v0 (0 + 200 + 100)%Z
                  a0 0 0 0) as (t' & Hst & He & Ht) end.
    cbn zeta in *.
    destruct (scrollLoop ops2 _ _ _ _ _ _) as [st e].
    destruct (scrollLoop (timed ops2) _ _ _ _ _ _) as [st' e'].
    cbn [fst snd] in *. subst st' e'. cbn [view acc fst snd].
    unfold maxScrolls in Ht. repeat split; try done; lia.
Qed.
